(** * ksonnet [env] commands: add, rm, list, set

    A shallow embedding of [cmd/env.go] together with the environment
    registry it drives.  The command layer ([commonEnvFlags], [envAddCmd],
    [envRmCmd], [envListCmd], [envSetCmd] and the flag sets built by [init])
    follows the Go source line by line.  The packages [metadata] and
    [pkg/kubecfg] that the commands call into are not part of the sources at
    hand; they are modelled from the written specification and every such
    definition says so in its doc comment. *)

From Stdlib Require Import Ascii String.
From stdpp Require Import gmap strings list sorting.

Local Open Scope string_scope.
Local Open Scope list_scope.
Local Open Scope nat_scope.

(** ** Errors and results *)

(** The errors a command can return.  [ArityError] and
    [ConflictingFlagsError] carry the text that [fmt.Errorf] builds in
    [env.go]; [FlagNotDefined] is what [pflag.FlagSet.GetString] answers for
    a name that was never declared; [HostError] stands for a failure of
    [os.Getwd] or [metadata.Find].  The remaining constructors are the
    error kinds of the registry. *)
Inductive Err : Type :=
  | ArityError (msg : string)
  | ConflictingFlagsError (msg : string)
  | FlagNotDefined (flag : string)
  | HostError (msg : string)
  | ContextNotFoundError
  | ContextResolutionError
  | InvalidNameError (segment : string)
  | DuplicateEnvironmentError
  | EnvironmentNotFoundError
  | StoreIOError.

(** A Go [(value, error)] pair of which exactly one side is meaningful. *)
Inductive result (A : Type) : Type :=
  | Ok (a : A)
  | Error (e : Err).
Arguments Ok {A} a.
Arguments Error {A} e.

(** ** Data model *)

(** An environment name: its path segments below [environments/]. *)
Abbreviation EnvironmentName := (list string) (only parsing).
Abbreviation Path := (list string) (only parsing).

Record EnvironmentSpec : Type := mkSpec {
  uri : string;
  namespace : string;
  apiSpecVersion : string
}.

(** What a path of the tree holds: a directory, the spec file of an
    environment, or an artefact of the [.metadata] cache. *)
Inductive Entry : Type :=
  | Dir
  | SpecFile (s : EnvironmentSpec)
  | Blob (data : string).

#[global] Instance EnvironmentSpec_eq_dec : EqDecision EnvironmentSpec.
Proof. solve_decision. Defined.
#[global] Instance Entry_eq_dec : EqDecision Entry.
Proof. solve_decision. Defined.

(** The tree below [environments/] as a finite map from paths to entries;
    the root itself is the empty path. *)
Abbreviation FS := (gmap (list string) Entry) (only parsing).

(** ** Names *)

(** [strings.Split] by a class of separator characters: the pieces between
    separators, [[""]] for the empty string. *)
Fixpoint splitBy (isSep : ascii -> bool) (s : string) : list string :=
  match s with
  | EmptyString => [EmptyString]
  | String c rest =>
      if isSep c then EmptyString :: splitBy isSep rest
      else match splitBy isSep rest with
           | seg :: segs => String c seg :: segs
           | [] => [String c EmptyString]
           end
  end.

Definition isSlash (c : ascii) : bool := Ascii.eqb c "/"%char.

(** The characters an operating system may read as a path separator. *)
Definition isSeparator (c : ascii) : bool :=
  Ascii.eqb c "/"%char || Ascii.eqb c "\"%char.

Fixpoint anyChar (p : ascii -> bool) (s : string) : bool :=
  match s with
  | EmptyString => false
  | String c rest => p c || anyChar p rest
  end.

(** The canonical string form of a name. *)
Definition canonical (name : EnvironmentName) : string :=
  String.concat "/" name.

(** How the operating system resolves a relative path below a directory:
    it reads every separator, skips empty and [.] components and climbs on
    [..].  [None] means the path climbed above the directory it started
    from. *)
Fixpoint cleanFrom (stack : list string) (comps : list string)
  : option (list string) :=
  match comps with
  | [] => Some (reverse stack)
  | c :: rest =>
      if String.eqb c "" || String.eqb c "." then cleanFrom stack rest
      else if String.eqb c ".." then
        match stack with
        | [] => None
        | _ :: up => cleanFrom up rest
        end
      else cleanFrom (c :: stack) rest
  end.

Definition resolveUnderRoot (p : string) : option (list string) :=
  cleanFrom [] (splitBy isSeparator p).

Section NameValidator.

(** The conservative cross-platform-safe character set is left open. *)
Variable safeChar : ascii -> bool.

Definition badSegment (seg : string) : bool :=
  String.eqb seg "" || String.eqb seg "." || String.eqb seg ".."
  || anyChar isSeparator seg
  || anyChar (fun c => negb (safeChar c)) seg.

(** Modelled from the spec: the name validator lives in package
    [metadata], which is not among the sources.  Section 4.1: split on
    [/], reject empty input, reject a segment that is [.] or [..], that
    contains a separator or a character outside the safe set; the error
    carries the offending segment. *)
Definition normalize (raw : string) : result EnvironmentName :=
  if String.eqb raw "" then Error (InvalidNameError "")
  else match List.find badSegment (splitBy isSlash raw) with
       | Some seg => Error (InvalidNameError seg)
       | None => Ok (splitBy isSlash raw)
       end.

End NameValidator.

(** ** The environment store *)

(** The primitive filesystem calls the store issues; a host decides which
    of them fail. *)
Inductive Prim : Type :=
  | PMkdir (p : Path)
  | PWrite (p : Path)
  | PRemoveAll (p : Path)
  | PRemove (p : Path)
  | PMove (src dst : Path).

Module Store.

Definition specPath (name : Path) : Path := name ++ ["spec.json"].

(** Modelled from the spec: [exists(name)] of section 4.3, true iff a
    leaf with a persisted spec sits at exactly that path. *)
Definition envExists (fs : FS) (name : Path) : bool :=
  match fs !! specPath name with
  | Some (SpecFile _) => true
  | _ => false
  end.

Definition readSpec (fs : FS) (name : Path) : option EnvironmentSpec :=
  match fs !! specPath name with
  | Some (SpecFile s) => Some s
  | _ => None
  end.

(** The proper prefixes of a name, the root first. *)
Definition strictPrefixes (name : Path) : list Path :=
  (fun n => take n name) <$> seq 0 (length name).

(** The directories between the root and a name's leaf, nearest to the
    leaf first; the root is not among them. *)
Definition ancestors (name : Path) : list Path :=
  reverse (tail (strictPrefixes name)).

Definition strictPrefixOf (a b : Path) : bool :=
  bool_decide (a `prefix_of` b) && negb (bool_decide (a = b)).

(** The environment a spec file belongs to. *)
Definition leafOf (pe : Path * Entry) : option (Path * EnvironmentSpec) :=
  match pe.2 with
  | SpecFile s =>
      if bool_decide (last pe.1 = Some "spec.json")
      then Some (removelast pe.1, s) else None
  | _ => None
  end.

Definition leaves (fs : FS) : list (Path * EnvironmentSpec) :=
  omap leafOf (map_to_list fs).

(** A directory is empty when the tree holds nothing below it. *)
Definition dirEmpty (fs : FS) (d : Path) : bool :=
  bool_decide (map_Forall (fun p (_ : Entry) => strictPrefixOf d p = false) fs).

Definition unlink (p : Path) (fs : FS) : FS := base.delete p fs.

(** Exchange two path prefixes.  On a tree that holds nothing at or
    below [b] this relocates the subtree at [a] to [b]. *)
Definition swapPrefix (a b p : Path) : Path :=
  if bool_decide (a `prefix_of` p) then b ++ drop (length a) p
  else if bool_decide (b `prefix_of` p) then a ++ drop (length b) p
  else p.

Section Primitives.

Variable faulty : Prim -> bool.

Definition mkdir (d : Path) (fs : FS) : result FS :=
  if faulty (PMkdir d) then Error StoreIOError else Ok (<[d := Dir]> fs).

(** Replace a file's contents in one step: all or nothing. *)
Definition writeFile (p : Path) (e : Entry) (fs : FS) : result FS :=
  if faulty (PWrite p) then Error StoreIOError else Ok (<[p := e]> fs).

Definition removeAll (d : Path) (fs : FS) : result FS :=
  if faulty (PRemoveAll d) then Error StoreIOError
  else Ok (filter (fun pe => ¬ d `prefix_of` pe.1) fs).

Definition removeDir (d : Path) (fs : FS) : result FS :=
  if faulty (PRemove d) then Error StoreIOError else Ok (unlink d fs).

(** Move a directory.  As [rename(2)]: the source must exist, cannot be
    moved below itself, and the destination is either absent or an
    empty directory. *)
Definition move (src dst : Path) (fs : FS) : result FS :=
  if faulty (PMove src dst) then Error StoreIOError
  else if bool_decide (src `prefix_of` dst) then Error StoreIOError
  else
    let free :=
      match fs !! src, fs !! dst with
      | Some _, None => dirEmpty fs dst
      | Some Dir, Some Dir => dirEmpty fs dst
      | _, _ => false
      end in
    if free then Ok (kmap (swapPrefix src dst) (unlink dst fs))
    else Error StoreIOError.

(** Create the listed directories in order, skipping those that exist;
    answers the directories it made, the latest first. *)
Fixpoint mkdirAll (dirs : list Path) (created : list Path) (fs : FS)
  : result unit * list Path * FS :=
  match dirs with
  | [] => (Ok (), created, fs)
  | d :: rest =>
      match fs !! d with
      | Some Dir => mkdirAll rest created fs
      | Some _ => (Error StoreIOError, created, fs)
      | None =>
          match mkdir d fs with
          | Ok fs' => mkdirAll rest (d :: created) fs'
          | Error e => (Error e, created, fs)
          end
      end
  end.

(** Remove the directories a failed attempt made, best effort. *)
Definition rollback (created : list Path) (fs : FS) : FS :=
  foldl (fun acc d => match removeDir d acc with
                      | Ok fs' => fs'
                      | Error _ => acc
                      end) fs created.

(** The upward pruning walk of [delete] and [rename]. *)
Fixpoint prune (ups : list Path) (fs : FS) : result unit * FS :=
  match ups with
  | [] => (Ok (), fs)
  | d :: rest =>
      if dirEmpty fs d then
        match removeDir d fs with
        | Ok fs' => prune rest fs'
        | Error e => (Error e, fs)
        end
      else (Ok (), fs)
  end.

(** Modelled from the spec: [create(name, spec)] of section 4.3.  It
    refuses a name that exists, a name with an existing leaf on its
    path, and a name above an existing leaf; otherwise it makes the
    missing directories and writes the spec, removing the directories
    it made when a later step fails. *)
Definition create (name : Path) (spec : EnvironmentSpec) (fs : FS)
  : result unit * FS :=
  if envExists fs name
     || existsb (envExists fs) (strictPrefixes name)
     || existsb (fun l => strictPrefixOf name l.1) (leaves fs)
  then (Error DuplicateEnvironmentError, fs)
  else
    let '(r, created, fs1) :=
      mkdirAll (tail (strictPrefixes name) ++ [name]) [] fs in
    match r with
    | Error e => (Error e, rollback created fs1)
    | Ok _ =>
        match writeFile (specPath name) (SpecFile spec) fs1 with
        | Ok fs2 => (Ok (), fs2)
        | Error e => (Error e, rollback created fs1)
        end
    end.

(** Modelled from the spec: [delete(name)] of section 4.3: remove the
    leaf with its subtree, then walk upward from the leaf's parent and
    remove each ancestor that is now empty, stopping at the root or at
    the first ancestor that is not empty.  Ancestors removed before a
    failure stay removed. *)
Definition delete (name : Path) (fs : FS) : result unit * FS :=
  if negb (envExists fs name) then (Error EnvironmentNotFoundError, fs)
  else match removeAll name fs with
       | Error e => (Error e, fs)
       | Ok fs1 => prune (ancestors name) fs1
       end.

(** Modelled from the spec: [rename(oldName, newName)] of section 4.3:
    make the destination's parent directories, move the leaf, prune
    upward from the old parent; a failed move removes the directories
    just made and leaves the source alone. *)
Definition rename (oldName newName : Path) (fs : FS) : result unit * FS :=
  if negb (envExists fs oldName) then (Error EnvironmentNotFoundError, fs)
  else if envExists fs newName then (Error DuplicateEnvironmentError, fs)
  else
    let '(r, created, fs1) :=
      mkdirAll (tail (strictPrefixes newName)) [] fs in
    match r with
    | Error e => (Error e, rollback created fs1)
    | Ok _ =>
        match move oldName newName fs1 with
        | Error e => (Error e, rollback created fs1)
        | Ok fs2 => prune (ancestors oldName) fs2
        end
    end.

(** Modelled from the spec: [updateSpec(name, mutate)] of section 4.3:
    read the current spec, apply the mutation, swap the new contents
    into place. *)
Definition updateSpec (name : Path)
    (mutate : EnvironmentSpec -> EnvironmentSpec) (fs : FS)
  : result unit * FS :=
  match readSpec fs name with
  | None => (Error EnvironmentNotFoundError, fs)
  | Some s =>
      match writeFile (specPath name) (SpecFile (mutate s)) fs with
      | Ok fs' => (Ok (), fs')
      | Error e => (Error e, fs)
      end
  end.

End Primitives.

Definition nameLe (a b : Path * EnvironmentSpec) : Prop :=
  String.leb (canonical a.1) (canonical b.1) = true.

#[global] Instance nameLe_dec : RelDecision nameLe.
Proof. intros a b. unfold nameLe. apply _. Defined.

(** Modelled from the spec: [list()] of section 4.3, every environment
    with its spec, ordered by canonical name. *)
Definition list (fs : FS) : list (Path * EnvironmentSpec) :=
  merge_sort nameLe (leaves fs).

End Store.

(** ** The world a command runs in *)

(** [metadata.Manager]: the handle on the application that [metadata.Find]
    answers; the tree of a world is the [environments/] tree of that
    application. *)
Record Manager : Type := mkManager { appRoot : string }.

(** What a run does, in order: flag reads, host lookups, context
    resolutions, and the store operations it starts. *)
Inductive Event : Type :=
  | EvGetString (flag : string)
  | EvGetwd
  | EvFind (root : string)
  | EvResolveContext (ctx : option string)
  | EvCreate (name : Path) (spec : EnvironmentSpec)
  | EvDelete (name : Path)
  | EvRename (oldName newName : Path)
  | EvUpdateSpec (name : Path)
  | EvList.

Record World : Type := mkWorld {
  tree : FS;
  trace : list Event;
  stdout : list string
}.

(** Everything outside the program: the working directory, the lookup of
    the application root, the kubeconfig contexts, which filesystem calls
    fail, and the safe character set of the name validator. *)
Record Host : Type := mkHost {
  os_Getwd : result string;
  metadata_Find : string -> result Manager;
  kubeconfig : option string -> result (string * string);
  faulty : Prim -> bool;
  safeChar : ascii -> bool
}.

(** Commands thread the world and stop at the first error. *)
Definition M (A : Type) : Type := World -> result A * World.

#[global] Instance M_ret : MRet M := fun A a w => (Ok a, w).

#[global] Instance M_bind : MBind M := fun A B f m w =>
  match m w with
  | (Ok a, w') => f a w'
  | (Error e, w') => (Error e, w')
  end.

Definition fail {A} (e : Err) : M A := fun w => (Error e, w).

Definition liftResult {A} (r : result A) : M A := fun w => (r, w).

Definition emit (ev : Event) : M unit := fun w =>
  (Ok (), mkWorld (tree w) (trace w ++ [ev]) (stdout w)).

Definition say (line : string) : M unit := fun w =>
  (Ok (), mkWorld (tree w) (trace w) (stdout w ++ [line])).

Definition onTree {A} (op : FS -> result A * FS) : M A := fun w =>
  let '(r, t) := op (tree w) in (r, mkWorld t (trace w) (stdout w)).

Definition getTree : M FS := fun w => (Ok (tree w), w).

(** ** Package kubecfg: the registry operations *)

Record EnvAddCmd : Type := mkEnvAddCmd {
  add_name : string;
  add_uri : string;
  add_namespace : string;
  add_spec : string;
  add_manager : Manager
}.

Record EnvRmCmd : Type := mkEnvRmCmd {
  rm_name : string;
  rm_manager : Manager
}.

Record EnvListCmd : Type := mkEnvListCmd { list_manager : Manager }.

Record EnvSetCmd : Type := mkEnvSetCmd {
  set_name : string;
  set_desiredName : string;
  set_desiredURI : string;
  set_desiredNamespace : string;
  set_manager : Manager
}.

(** Modelled from the spec: the constructors of package [pkg/kubecfg] are
    not among the sources; each records its arguments. *)
Definition NewEnvAddCmd (name uri namespace specFlag : string)
    (manager : Manager) : result EnvAddCmd :=
  Ok (mkEnvAddCmd name uri namespace specFlag manager).

Definition NewEnvRmCmd (name : string) (manager : Manager) : result EnvRmCmd :=
  Ok (mkEnvRmCmd name manager).

Definition NewEnvListCmd (manager : Manager) : result EnvListCmd :=
  Ok (mkEnvListCmd manager).

Definition NewEnvSetCmd (name desiredName desiredURI desiredNamespace : string)
    (manager : Manager) : result EnvSetCmd :=
  Ok (mkEnvSetCmd name desiredName desiredURI desiredNamespace manager).

(** The field changes of a [Set]: an empty value leaves the field alone,
    [apiSpecVersion] is never touched. *)
Definition applyFields (desiredURI desiredNamespace : string)
    (s : EnvironmentSpec) : EnvironmentSpec :=
  mkSpec (if String.eqb desiredURI "" then uri s else desiredURI)
         (if String.eqb desiredNamespace "" then namespace s
          else desiredNamespace)
         (apiSpecVersion s).

Section Operations.

Variable h : Host.

(** Modelled from the spec: [Add] of section 4.4 past flag handling:
    normalize the name, build the spec, call [create]. *)
Definition EnvAddCmd_Run (c : EnvAddCmd) : M unit :=
  name ← liftResult (normalize (safeChar h) (add_name c));
  let spec := mkSpec (add_uri c) (add_namespace c) (add_spec c) in
  emit (EvCreate name spec);;
  onTree (Store.create (faulty h) name spec).

(** Modelled from the spec: [Remove] of section 4.4: normalize the name,
    call [delete]. *)
Definition EnvRmCmd_Run (c : EnvRmCmd) : M unit :=
  name ← liftResult (normalize (safeChar h) (rm_name c));
  emit (EvDelete name);;
  onTree (Store.delete (faulty h) name).

(** Modelled from the spec: [List] of section 4.4: an ordered report of
    name, uri and namespace; no mutation. *)
Definition EnvListCmd_Run (c : EnvListCmd) : M unit :=
  emit EvList;;
  t ← getTree;
  foldr (fun (e : list string * EnvironmentSpec) (k : M unit) =>
           say (canonical e.1 +:+ " " +:+ uri e.2 +:+ " "
                +:+ namespace e.2);; k)
        (mret ()) (Store.list t).

(** Modelled from the spec: [Set] of section 4.4 past flag handling:
    normalize the old name; when a new name is given and differs, rename
    first; then apply the uri and namespace changes with [updateSpec]
    to the environment under its present name.  With no field to change
    the second phase does nothing.  Two phases, no transaction: an error
    of the second is returned as it is. *)
Definition EnvSetCmd_Run (c : EnvSetCmd) : M unit :=
  oldName ← liftResult (normalize (safeChar h) (set_name c));
  target ←
    (if negb (String.eqb (set_desiredName c) "")
        && negb (String.eqb (set_desiredName c) (set_name c))
     then
       newName ← liftResult (normalize (safeChar h) (set_desiredName c));
       emit (EvRename oldName newName);;
       onTree (Store.rename (faulty h) oldName newName);;
       mret newName
     else mret oldName);
  if String.eqb (set_desiredURI c) ""
     && String.eqb (set_desiredNamespace c) ""
  then mret ()
  else
    emit (EvUpdateSpec target);;
    onTree (Store.updateSpec (faulty h) target
              (applyFields (set_desiredURI c) (set_desiredNamespace c))).

End Operations.

(** ** Package cmd: [env.go] *)

Abbreviation FlagSet := (list (string * string)) (only parsing).

Definition flagEnvName : string := "name".
Definition flagEnvURI : string := "uri".
Definition flagEnvNamespace : string := "namespace".
Definition flagEnvContext : string := "context".

(** Modelled from the spec: the constant [flagAPISpec] is declared in
    another file of package [cmd]; the examples of [envAddCmd] spell the
    flag [--api-spec]. *)
Definition flagAPISpec : string := "api-spec".

(** The flags [init] declares on [envAddCmd], each with its default. *)
Definition envAddCmd_PersistentFlags : FlagSet :=
  [ (flagAPISpec, "version:v1.7.0");
    (flagEnvNamespace, "");
    (flagEnvURI, "");
    (flagEnvContext, "") ].

(** The flags [init] declares on [envSetCmd]. *)
Definition envSetCmd_PersistentFlags : FlagSet :=
  [ (flagEnvName, "");
    (flagEnvURI, "");
    (flagEnvNamespace, "");
    (flagEnvContext, "") ].

Fixpoint lookupFlag (flags : FlagSet) (name : string) : option string :=
  match flags with
  | [] => None
  | (n, v) :: rest => if String.eqb n name then Some v else lookupFlag rest name
  end.

(** [pflag]: a value given on the command line replaces the value of the
    declared flag of that name; an undeclared name is refused. *)
Fixpoint setFlag (flags : FlagSet) (name value : string) : option FlagSet :=
  match flags with
  | [] => None
  | (n, v) :: rest =>
      if String.eqb n name then Some ((n, value) :: rest)
      else match setFlag rest name value with
           | Some rest' => Some ((n, v) :: rest')
           | None => None
           end
  end.

Fixpoint parseFlags (declared : FlagSet) (given : list (string * string))
  : result FlagSet :=
  match given with
  | [] => Ok declared
  | (n, v) :: rest =>
      match setFlag declared n v with
      | Some declared' => parseFlags declared' rest
      | None => Error (FlagNotDefined n)
      end
  end.

(** [flags.GetString]. *)
Definition GetString (flags : FlagSet) (name : string) : M string :=
  emit (EvGetString name);;
  liftResult (match lookupFlag flags name with
              | Some v => Ok v
              | None => Error (FlagNotDefined name)
              end).

Definition conflictMessage : string :=
  "flags '" +:+ flagEnvContext +:+ "' and '" +:+ flagEnvURI
  +:+ "' are mutually exclusive, because '" +:+ flagEnvContext
  +:+ "' has a URI. Try setting '" +:+ flagEnvURI +:+ "', '"
  +:+ flagEnvNamespace +:+ "' to the desired values".

(** [commonEnvFlags], lines 343 to 365. *)
Definition commonEnvFlags (flags : FlagSet) : M (string * string * string) :=
  uri ← GetString flags flagEnvURI;
  namespace ← GetString flags flagEnvNamespace;
  context ← GetString flags flagEnvContext;
  if negb (String.length context =? 0)%nat && negb (String.length uri =? 0)%nat
  then fail (ConflictingFlagsError conflictMessage)
  else mret (uri, namespace, context).

Definition AbsPath (dir : string) : string := dir.

Section Commands.

Variable h : Host.

(** [resolveContext] is defined in another file of package [cmd]; what it
    answers is the host's kubeconfig. *)
Definition resolveContext (ctx : option string) : M (string * string) :=
  emit (EvResolveContext ctx);;
  liftResult (kubeconfig h ctx).

Definition Getwd : M string :=
  emit EvGetwd;; liftResult (os_Getwd h).

Definition Find (root : string) : M Manager :=
  emit (EvFind root);; liftResult (metadata_Find h root).

(** [envAddCmd.RunE], lines 108 to 163. *)
Definition envAddCmd (args : list string) (flags : FlagSet) : M unit :=
  if negb (length args =? 1)%nat then
    fail (ArityError
      "'env add' takes exactly one argument, which is the name of the environment")
  else
    let name := default "" (args !! 0) in
    '(uri, namespace, context) ← commonEnvFlags flags;
    '(uri, namespace) ←
      (if (String.length uri =? 0)%nat then
         let ctx :=
           if negb (String.length context =? 0)%nat then Some context
           else None in
         '(uri', ns) ← resolveContext ctx;
         mret (uri',
               if (String.length namespace =? 0)%nat then ns else namespace)
       else mret (uri, namespace));
    appDir ← Getwd;
    let appRoot := AbsPath appDir in
    manager ← Find appRoot;
    specFlag ← GetString flags flagAPISpec;
    c ← liftResult (NewEnvAddCmd name uri namespace specFlag manager);
    EnvAddCmd_Run h c.

(** [envRmCmd.RunE], lines 213 to 237. *)
Definition envRmCmd (args : list string) : M unit :=
  if negb (length args =? 1)%nat then
    fail (ArityError
      "'env rm' takes a single argument, that is the name of the environment")
  else
    let envName := default "" (args !! 0) in
    appDir ← Getwd;
    let appRoot := AbsPath appDir in
    manager ← Find appRoot;
    c ← liftResult (NewEnvRmCmd envName manager);
    EnvRmCmd_Run h c.

(** [envListCmd.RunE], lines 253 to 275. *)
Definition envListCmd (args : list string) : M unit :=
  if negb (length args =? 0)%nat then
    fail (ArityError "'env list' takes zero arguments")
  else
    appDir ← Getwd;
    let appRoot := AbsPath appDir in
    manager ← Find appRoot;
    c ← liftResult (NewEnvListCmd manager);
    EnvListCmd_Run c.

(** [envSetCmd.RunE], lines 282 to 324. *)
Definition envSetCmd (args : list string) (flags : FlagSet) : M unit :=
  if negb (length args =? 1)%nat then
    fail (ArityError
      "'env set' takes a single argument, that is the name of the environment")
  else
    let originalName := default "" (args !! 0) in
    appDir ← Getwd;
    let appRoot := AbsPath appDir in
    manager ← Find appRoot;
    name ← GetString flags flagEnvName;
    '(uri, namespace, context) ← commonEnvFlags flags;
    uri ←
      (if negb (String.length context =? 0)%nat then
         '(uri', _) ← resolveContext (Some context);
         mret uri'
       else mret uri);
    c ← liftResult (NewEnvSetCmd originalName name uri namespace manager);
    EnvSetCmd_Run h c.

End Commands.

(** ** Hosts and trees for the examples *)

Definition inRange (lo hi : nat) (c : ascii) : bool :=
  (lo <=? nat_of_ascii c)%nat && (nat_of_ascii c <=? hi)%nat.

(** Letters, digits, [-] and [_]. *)
Definition plainChar (c : ascii) : bool :=
  inRange 97 122 c || inRange 65 90 c || inRange 48 57 c
  || Ascii.eqb c "-"%char || Ascii.eqb c "_"%char.

Definition sampleKubeconfig (ctx : option string) : result (string * string) :=
  match ctx with
  | None => Ok ("https://current:6443", "default")
  | Some name =>
      if String.eqb name "dev" then Ok ("https://dev:6443", "dev-ns")
      else Error ContextNotFoundError
  end.

(** A host with an application at [/app] and a healthy disk. *)
Definition sampleHost : Host :=
  mkHost (Ok "/app") (fun root => Ok (mkManager root)) sampleKubeconfig
         (fun _ => false) plainChar.

(** A host whose working directory is not inside any application. *)
Definition strayHost : Host :=
  mkHost (Ok "/tmp") (fun _ => Error (HostError "no ksonnet application found"))
         sampleKubeconfig (fun _ => false) plainChar.

(** A host on which no file can be written; directories still move. *)
Definition readOnlyFilesHost : Host :=
  mkHost (Ok "/app") (fun root => Ok (mkManager root)) sampleKubeconfig
         (fun p => match p with PWrite _ => true | _ => false end) plainChar.

Definition stagingSpec : EnvironmentSpec :=
  mkSpec "https://host:6443" "" "version:v1.7.0".

Definition prodSpec : EnvironmentSpec :=
  mkSpec "https://prod:6443" "prod" "version:v1.8.0".

(** [environments/] holding [default], [us-west/staging] with its cache,
    and [eu/north/prod]. *)
Definition sampleTree : FS :=
  list_to_map
    [ ([], Dir);
      (["default"], Dir);
      (["default"; "spec.json"], SpecFile stagingSpec);
      (["us-west"], Dir);
      (["us-west"; "staging"], Dir);
      (["us-west"; "staging"; "spec.json"], SpecFile stagingSpec);
      (["us-west"; "staging"; ".metadata"], Dir);
      (["us-west"; "staging"; ".metadata"; "k.libsonnet"], Blob "k");
      (["eu"], Dir);
      (["eu"; "north"], Dir);
      (["eu"; "north"; "prod"], Dir);
      (["eu"; "north"; "prod"; "spec.json"], SpecFile prodSpec) ].

Definition sampleWorld : World := mkWorld sampleTree [] [].

(** An application with no environment yet. *)
Definition emptyWorld : World := mkWorld {[ [] := Dir ]} [] [].

(** The flag set of a run of [env add] given [--name=value] pairs. *)
Definition addFlags (given : list (string * string)) : FlagSet :=
  match parseFlags envAddCmd_PersistentFlags given with
  | Ok flags => flags
  | Error _ => envAddCmd_PersistentFlags
  end.

Definition setFlags (given : list (string * string)) : FlagSet :=
  match parseFlags envSetCmd_PersistentFlags given with
  | Ok flags => flags
  | Error _ => envSetCmd_PersistentFlags
  end.

(** ** Observations on a run *)

(** Events that only read: flag values, the working directory, the
    application root. *)
Definition isLookup (ev : Event) : bool :=
  match ev with
  | EvGetString _ | EvGetwd | EvFind _ => true
  | _ => false
  end.

(** What a run added to the trace. *)
Definition newEvents (before after : World) : list Event :=
  drop (length (trace before)) (trace after).

Definition resolved (ev : Event) : option (option string) :=
  match ev with
  | EvResolveContext ctx => Some ctx
  | _ => None
  end.

(** The identifiers handed to the context resolver during a run. *)
Definition resolutions (before after : World) : list (option string) :=
  omap resolved (newEvents before after).

(** The world after some more events and nothing else. *)
Definition after (w : World) (evs : list Event) : World :=
  mkWorld (tree w) (trace w ++ evs) (stdout w).

(** A host that differs in its kubeconfig only. *)
Definition withKubeconfig (h : Host)
    (k : option string -> result (string * string)) : Host :=
  mkHost (os_Getwd h) (metadata_Find h) k (faulty h) (safeChar h).

Definition arityAdd : Err :=
  ArityError
    "'env add' takes exactly one argument, which is the name of the environment".
Definition arityRm : Err :=
  ArityError
    "'env rm' takes a single argument, that is the name of the environment".
Definition arityList : Err := ArityError "'env list' takes zero arguments".
Definition aritySet : Err :=
  ArityError
    "'env set' takes a single argument, that is the name of the environment".

(** A segment a canonical name may hold. *)
Definition goodSegment (safe : ascii → bool) (seg : string) : Prop :=
  seg ≠ "" ∧ seg ≠ "." ∧ seg ≠ ".."
  ∧ anyChar isSeparator seg = false
  ∧ anyChar (fun c => negb (safe c)) seg = false.

(** The ancestors of a name from depth [m] up to depth one. *)
Fixpoint chain (name : list string) (m : nat) : list (list string) :=
  match m with
  | 0 => []
  | S m' => take m name :: chain name m'
  end.

(** A path on the line through a name: above it, at it, or below it. *)
Definition onLine (name p : list string) : Prop :=
  p `prefix_of` name ∨ name `prefix_of` p.

(** A directory that holds nothing but the way to a name and what lies
    below that name: empty once the name's leaf and the directories
    between are gone. *)
Definition onlyLeadsTo (fs : gmap (list string) Entry)
    (name p : list string) : Prop :=
  ∀ q, is_Some (fs !! q) → p `prefix_of` q → p ≠ q → onLine name q.

(** The part of the line through a name that lies deeper than [m]. *)
Definition cut (name : list string) (m : nat) (p : list string) : bool :=
  bool_decide (take (S m) name `prefix_of` p) && bool_decide (onLine name p).

(** Lines 141 to 162 of [envAddCmd]: what it does once the uri and the
    namespace are settled. *)
Definition envAddCmd_finish (h : Host) (name : string) (flags : FlagSet)
    (uri namespace : string) : M unit :=
  appDir ← Getwd h;
  let appRoot := AbsPath appDir in
  manager ← Find h appRoot;
  specFlag ← GetString flags flagAPISpec;
  c ← liftResult (NewEnvAddCmd name uri namespace specFlag manager);
  EnvAddCmd_Run h c.

(** Lines 141 to 150 of [envAddCmd], and the same lines of the other
    three commands: the working directory, then the application found
    from it. *)
Definition locate (h : Host) : result Manager :=
  match os_Getwd h with
  | Ok d => metadata_Find h (AbsPath d)
  | Error e => Error e
  end.

(** What that lookup leaves in the trace: [metadata.Find] is not called
    when [os.Getwd] fails. *)
Definition locateEvents (h : Host) : list Event :=
  match os_Getwd h with
  | Ok d => [EvGetwd; EvFind (AbsPath d)]
  | Error _ => [EvGetwd]
  end.

(** The three reads of [commonEnvFlags], in its order. *)
Definition commonReads : list Event :=
  [EvGetString flagEnvURI; EvGetString flagEnvNamespace;
   EvGetString flagEnvContext].

(** * Properties *)

(** ** Running the command layer *)

#[local] Arguments GetString : simpl never.
#[local] Arguments commonEnvFlags : simpl never.
#[local] Arguments EnvAddCmd_Run : simpl never.
#[local] Arguments EnvRmCmd_Run : simpl never.
#[local] Arguments EnvListCmd_Run : simpl never.
#[local] Arguments EnvSetCmd_Run : simpl never.
#[local] Arguments normalize : simpl never.
#[local] Arguments flagEnvName : simpl never.
#[local] Arguments flagEnvURI : simpl never.
#[local] Arguments flagEnvNamespace : simpl never.
#[local] Arguments flagEnvContext : simpl never.
#[local] Arguments flagAPISpec : simpl never.
#[local] Arguments AbsPath : simpl never.

Ltac run :=
  unfold mbind, M_bind, mret, M_ret, fail, emit, liftResult, onTree, getTree,
    after; simpl.

Ltac no_event H :=
  apply list_elem_of_In in H; simpl in H;
  intuition (try discriminate; try congruence).

Lemma pair_eta_fst {A B} (x : A * B) (a : A) : x.1 = a → x = (a, x.2).
Proof. destruct x. simpl. by intros ->. Qed.

Lemma len_zero (s : string) : (String.length s =? 0)%nat = String.eqb s "".
Proof. by destruct s. Qed.

Lemma eqb_empty_false (s : string) : s ≠ "" → String.eqb s "" = false.
Proof. by destruct s. Qed.

Lemma after_after w evs evs' : after (after w evs) evs' = after w (evs ++ evs').
Proof. unfold after. simpl. by rewrite <- app_assoc. Qed.

Lemma newEvents_after w evs : newEvents w (after w evs) = evs.
Proof. unfold newEvents, after. simpl. by rewrite drop_app_length. Qed.

Lemma GetString_run flags name v w :
  lookupFlag flags name = Some v →
  GetString flags name w = (Ok v, after w [EvGetString name]).
Proof. intros H. unfold GetString. run. by rewrite H. Qed.

(** [commonEnvFlags] on a flag set that declares its three flags. *)
Lemma commonEnvFlags_run flags w u n c :
  lookupFlag flags flagEnvURI = Some u →
  lookupFlag flags flagEnvNamespace = Some n →
  lookupFlag flags flagEnvContext = Some c →
  commonEnvFlags flags w =
    ((if negb (String.eqb c "") && negb (String.eqb u "")
      then Error (ConflictingFlagsError conflictMessage)
      else Ok (u, n, c)),
     after w [EvGetString flagEnvURI; EvGetString flagEnvNamespace;
              EvGetString flagEnvContext]).
Proof.
  intros Hu Hn Hc. unfold commonEnvFlags, mbind, M_bind.
  rewrite (GetString_run _ _ _ _ Hu), (GetString_run _ _ _ _ Hn),
    (GetString_run _ _ _ _ Hc), !after_after, !len_zero. simpl.
  by destruct (negb _ && negb _).
Qed.

(** ** Arity *)

Lemma envAddCmd_arity h args flags w :
  length args ≠ 1 → envAddCmd h args flags w = (Error arityAdd, w).
Proof.
  intros Hlen. apply Nat.eqb_neq in Hlen. unfold envAddCmd. by rewrite Hlen.
Qed.

(** C10: every command checks the number of positional arguments first.
    [add], [rm] and [set] given anything but one argument, and [list] given
    anything but none, return their arity error and leave the world as it
    was: no flag was read, no context resolved, nothing looked up or
    changed in the store. *)
Theorem arity_checked_first (h : Host) (args : list string) (flags : FlagSet)
    (w : World) :
  (length args ≠ 1 →
     envAddCmd h args flags w = (Error arityAdd, w)
     ∧ envRmCmd h args w = (Error arityRm, w)
     ∧ envSetCmd h args flags w = (Error aritySet, w))
  ∧ (length args ≠ 0 → envListCmd h args w = (Error arityList, w)).
Proof.
  split.
  - intros Hlen. apply Nat.eqb_neq in Hlen.
    unfold envAddCmd, envRmCmd, envSetCmd. by rewrite Hlen.
  - intros Hlen. apply Nat.eqb_neq in Hlen.
    unfold envListCmd. by rewrite Hlen.
Qed.

Lemma arity_checked_first_witness :
  length ["staging"; "prod"] ≠ 1
  ∧ length ["staging"; "prod"] ≠ 0
  ∧ envAddCmd sampleHost ["staging"; "prod"] (addFlags []) sampleWorld
    = (Error arityAdd, sampleWorld)
  ∧ envListCmd sampleHost ["staging"; "prod"] sampleWorld
    = (Error arityList, sampleWorld).
Proof.
  assert (H1 : length ["staging"; "prod"] ≠ 1) by (simpl; lia).
  assert (H0 : length ["staging"; "prod"] ≠ 0) by (simpl; lia).
  destruct (arity_checked_first sampleHost ["staging"; "prod"] (addFlags [])
              sampleWorld) as [Hone Hzero].
  split; [exact H1|]. split; [exact H0|].
  split; [exact (proj1 (Hone H1)) | exact (Hzero H0)].
Defined.

(** ** Conflicting flags *)

(** C1, the claim as stated fails: [env set] with both [--uri] and
    [--context] given, run outside an application, returns the error of
    [metadata.Find], not the conflict of the two flags: [envSetCmd] looks
    up the application before it reads any flag. *)
Lemma set_conflict_unreported_outside_application :
  let flags := setFlags [("uri", "http://example.com"); ("context", "dev")] in
  lookupFlag flags flagEnvURI = Some "http://example.com"
  ∧ lookupFlag flags flagEnvContext = Some "dev"
  ∧ envSetCmd strayHost ["default"] flags sampleWorld
    = (Error (HostError "no ksonnet application found"),
       after sampleWorld [EvGetwd; EvFind "/tmp"])
  ∧ ∀ msg, (envSetCmd strayHost ["default"] flags sampleWorld).1
           ≠ Error (ConflictingFlagsError msg).
Proof.
  split; [reflexivity|]. split; [reflexivity|].
  split; [by vm_compute|].
  intros msg. by vm_compute.
Qed.

(** C1, amended: with one positional argument and both the [uri] and the
    [context] flag non-empty, [add] and [set] fail before any context is
    resolved and before the store is touched: the tree is unchanged and
    the run added only lookups to the trace.  [add] returns the conflict
    error; [set] returns it whenever the working directory, the
    application root and its [name] flag were found, and the error of
    that lookup otherwise. *)
Theorem conflicting_flags_rejected (h : Host) (name : string)
    (flags : FlagSet) (w : World) (u n c : string) :
  lookupFlag flags flagEnvURI = Some u →
  lookupFlag flags flagEnvNamespace = Some n →
  lookupFlag flags flagEnvContext = Some c →
  u ≠ "" → c ≠ "" →
  envAddCmd h [name] flags w
  = (Error (ConflictingFlagsError conflictMessage),
     after w [EvGetString flagEnvURI; EvGetString flagEnvNamespace;
              EvGetString flagEnvContext])
  ∧ ∃ e evs,
      envSetCmd h [name] flags w = (Error e, after w evs)
      ∧ forallb isLookup evs = true
      ∧ (∀ d m nm, os_Getwd h = Ok d → metadata_Find h (AbsPath d) = Ok m →
           lookupFlag flags flagEnvName = Some nm →
           e = ConflictingFlagsError conflictMessage).
Proof.
  intros Hu Hn Hc Hu0 Hc0.
  pose proof (commonEnvFlags_run flags) as Hcommon.
  assert (Hconf : negb (String.eqb c "") && negb (String.eqb u "") = true)
    by (by rewrite !eqb_empty_false).
  split.
  - unfold envAddCmd. simpl. unfold mbind at 1, M_bind at 1.
    by rewrite (Hcommon w u n c Hu Hn Hc), Hconf.
  - unfold envSetCmd, Getwd, Find. simpl. run.
    destruct (os_Getwd h) as [d|e] eqn:Hd.
    2:{ exists e, [EvGetwd]. split; [done|]. split; [done|]. by intros. }
    destruct (metadata_Find h (AbsPath d)) as [m|e] eqn:Hm.
    2:{ exists e, [EvGetwd; EvFind (AbsPath d)].
        rewrite <- app_assoc. split; [done|]. split; [done|].
        intros d' m' nm [= <-]. by rewrite Hm. }
    destruct (lookupFlag flags flagEnvName) as [nm|] eqn:Hnm.
    2:{ exists (FlagNotDefined flagEnvName),
          [EvGetwd; EvFind (AbsPath d); EvGetString flagEnvName].
        rewrite <- !app_assoc. split; [done|]. split; [done|]. by intros. }
    rewrite (Hcommon _ u n c Hu Hn Hc), Hconf.
    exists (ConflictingFlagsError conflictMessage),
      [EvGetwd; EvFind (AbsPath d); EvGetString flagEnvName;
       EvGetString flagEnvURI; EvGetString flagEnvNamespace;
       EvGetString flagEnvContext].
    unfold after. simpl. rewrite <- !app_assoc. by repeat split.
Qed.

Lemma conflicting_flags_rejected_witness :
  envAddCmd sampleHost ["us-east/dev"]
    (addFlags [("uri", "http://example.com"); ("context", "dev")]) sampleWorld
  = (Error (ConflictingFlagsError conflictMessage),
     after sampleWorld [EvGetString flagEnvURI; EvGetString flagEnvNamespace;
                        EvGetString flagEnvContext]).
Proof.
  apply (conflicting_flags_rejected sampleHost "us-east/dev"
           (addFlags [("uri", "http://example.com"); ("context", "dev")])
           sampleWorld "http://example.com" "" "dev");
    [reflexivity | reflexivity | reflexivity | discriminate | discriminate].
Defined.

(** ** Context resolution in [add] and [set] *)

(** [envAddCmd] up to the point where uri and namespace are settled. *)
Lemma envAddCmd_run h name flags w u n c :
  lookupFlag flags flagEnvURI = Some u →
  lookupFlag flags flagEnvNamespace = Some n →
  lookupFlag flags flagEnvContext = Some c →
  let reads := [EvGetString flagEnvURI; EvGetString flagEnvNamespace;
                EvGetString flagEnvContext] in
  let ctx := if String.eqb c "" then None else Some c in
  envAddCmd h [name] flags w =
    if negb (String.eqb c "") && negb (String.eqb u "") then
      (Error (ConflictingFlagsError conflictMessage), after w reads)
    else if String.eqb u "" then
      match kubeconfig h ctx with
      | Ok (uri', ns) =>
          envAddCmd_finish h name flags uri'
            (if String.eqb n "" then ns else n)
            (after w (reads ++ [EvResolveContext ctx]))
      | Error e => (Error e, after w (reads ++ [EvResolveContext ctx]))
      end
    else envAddCmd_finish h name flags u n (after w reads).
Proof.
  intros Hu Hn Hc reads ctx. unfold envAddCmd. simpl.
  unfold mbind at 1, M_bind at 1.
  rewrite (commonEnvFlags_run flags w u n c Hu Hn Hc).
  destruct (negb (String.eqb c "") && negb (String.eqb u "")); [done|].
  rewrite !len_zero. unfold mbind at 1, M_bind at 1.
  destruct (String.eqb u ""); [|done].
  unfold resolveContext. run.
  replace (if negb (String.eqb c "") then Some c else None) with ctx
    by (subst ctx; by destruct (String.eqb c "")).
  rewrite <- app_assoc.
  by destruct (kubeconfig h ctx) as [[uri' ns]|e].
Qed.

(** What [envAddCmd_finish] leaves in the trace: lookups, then at most the
    one [create] it starts, whose spec is built from its arguments and the
    [api-spec] flag. *)
Lemma envAddCmd_finish_events h name flags uri ns w :
  ∃ evs, trace (envAddCmd_finish h name flags uri ns w).2 = trace w ++ evs
    ∧ omap resolved evs = []
    ∧ ∀ nm spec, EvCreate nm spec ∈ evs →
        ∃ v, lookupFlag flags flagAPISpec = Some v ∧ spec = mkSpec uri ns v.
Proof.
  unfold envAddCmd_finish, Getwd, Find, GetString, EnvAddCmd_Run,
    NewEnvAddCmd. run.
  destruct (os_Getwd h) as [d|e]; simpl.
  2:{ exists [EvGetwd]. split; [done|]. split; [done|].
      intros nm spec Hin. no_event Hin. }
  destruct (metadata_Find h (AbsPath d)) as [m|e]; simpl.
  2:{ exists [EvGetwd; EvFind (AbsPath d)]. rewrite <- app_assoc.
      split; [done|]. split; [done|]. intros nm spec Hin. no_event Hin. }
  destruct (lookupFlag flags flagAPISpec) as [v|]; simpl.
  2:{ exists [EvGetwd; EvFind (AbsPath d); EvGetString flagAPISpec].
      rewrite <- !app_assoc.
      split; [done|]. split; [done|]. intros nm spec Hin. no_event Hin. }
  destruct (normalize (safeChar h) name) as [nm|e]; simpl.
  2:{ exists [EvGetwd; EvFind (AbsPath d); EvGetString flagAPISpec].
      rewrite <- !app_assoc.
      split; [done|]. split; [done|]. intros nm spec Hin. no_event Hin. }
  destruct (Store.create _ _ _ _) as [r t]. simpl.
  exists [EvGetwd; EvFind (AbsPath d); EvGetString flagAPISpec;
          EvCreate nm (mkSpec uri ns v)].
  rewrite <- !app_assoc. split; [done|]. split; [done|].
  intros nm' spec Hin. exists v. split; [done|]. no_event Hin.
Qed.

Lemma envAddCmd_finish_run h name flags uri ns w d m v :
  os_Getwd h = Ok d → metadata_Find h (AbsPath d) = Ok m →
  lookupFlag flags flagAPISpec = Some v →
  envAddCmd_finish h name flags uri ns w
  = EnvAddCmd_Run h (mkEnvAddCmd name uri ns v m)
      (after w [EvGetwd; EvFind (AbsPath d); EvGetString flagAPISpec]).
Proof.
  intros Hd Hm Hv. unfold envAddCmd_finish, Getwd, Find, NewEnvAddCmd. run.
  rewrite Hd. simpl. rewrite Hm. simpl. rewrite Hv.
  by rewrite <- !app_assoc.
Qed.

(** C3: in [add] the context resolver runs exactly when the [uri] flag is
    empty, and then once, on the [context] flag ([None], the active
    context, when that flag is empty).  The uri it answers is the uri of
    the environment handed to the store, and its namespace is used only
    when the [namespace] flag is empty. *)
Theorem add_resolves_context_iff_no_uri (h : Host) (name : string)
    (flags : FlagSet) (w : World) (u n c : string) :
  lookupFlag flags flagEnvURI = Some u →
  lookupFlag flags flagEnvNamespace = Some n →
  lookupFlag flags flagEnvContext = Some c →
  let ctx := if String.eqb c "" then None else Some c in
  resolutions w (envAddCmd h [name] flags w).2
  = (if String.eqb u "" then [ctx] else [])
  ∧ (∀ uri' ns d m v,
       u = "" → kubeconfig h ctx = Ok (uri', ns) →
       os_Getwd h = Ok d → metadata_Find h (AbsPath d) = Ok m →
       lookupFlag flags flagAPISpec = Some v →
       envAddCmd h [name] flags w
       = EnvAddCmd_Run h
           (mkEnvAddCmd name uri' (if String.eqb n "" then ns else n) v m)
           (after w [EvGetString flagEnvURI; EvGetString flagEnvNamespace;
                     EvGetString flagEnvContext; EvResolveContext ctx;
                     EvGetwd; EvFind (AbsPath d); EvGetString flagAPISpec])).
Proof.
  intros Hu Hn Hc ctx.
  rewrite (envAddCmd_run h name flags w u n c Hu Hn Hc). fold ctx.
  split.
  - unfold resolutions.
    assert (Hfin : ∀ a b pre,
      omap resolved (newEvents w (envAddCmd_finish h name flags a b
                                    (after w pre)).2)
      = omap resolved pre).
    { intros a b pre.
      destruct (envAddCmd_finish_events h name flags a b (after w pre))
        as (evs & Htr & Hnone & _).
      unfold newEvents. rewrite Htr. unfold after. simpl.
      by rewrite <- app_assoc, drop_app_length, omap_app, Hnone, app_nil_r. }
    destruct (String.eqb u "") eqn:Eu.
    + rewrite andb_false_r.
      destruct (kubeconfig h ctx) as [[uri' ns]|e].
      * by rewrite Hfin.
      * cbn [snd]. by rewrite newEvents_after.
    + destruct (negb (String.eqb c "") && negb false).
      * cbn [snd]. by rewrite newEvents_after.
      * by rewrite Hfin.
  - intros uri' ns d m v -> Hk Hd Hm Hv. simpl.
    rewrite andb_false_r, Hk.
    rewrite (envAddCmd_finish_run _ _ _ _ _ _ d m v Hd Hm Hv).
    by rewrite after_after.
Qed.

Lemma add_resolves_context_iff_no_uri_witness :
  resolutions sampleWorld
    (envAddCmd sampleHost ["us-east/dev"] (addFlags [("context", "dev")])
       sampleWorld).2
  = [Some "dev"].
Proof.
  apply (add_resolves_context_iff_no_uri sampleHost "us-east/dev"
           (addFlags [("context", "dev")]) sampleWorld "" "" "dev");
    reflexivity.
Defined.

(** [envSetCmd] up to the point where the new uri is settled. *)
Lemma envSetCmd_run h name flags w d m nm u n c :
  os_Getwd h = Ok d → metadata_Find h (AbsPath d) = Ok m →
  lookupFlag flags flagEnvName = Some nm →
  lookupFlag flags flagEnvURI = Some u →
  lookupFlag flags flagEnvNamespace = Some n →
  lookupFlag flags flagEnvContext = Some c →
  let reads := [EvGetwd; EvFind (AbsPath d); EvGetString flagEnvName;
                EvGetString flagEnvURI; EvGetString flagEnvNamespace;
                EvGetString flagEnvContext] in
  envSetCmd h [name] flags w =
    if negb (String.eqb c "") && negb (String.eqb u "") then
      (Error (ConflictingFlagsError conflictMessage), after w reads)
    else if String.eqb c "" then
      EnvSetCmd_Run h (mkEnvSetCmd name nm u n m) (after w reads)
    else
      match kubeconfig h (Some c) with
      | Ok (uri', _) =>
          EnvSetCmd_Run h (mkEnvSetCmd name nm uri' n m)
            (after w (reads ++ [EvResolveContext (Some c)]))
      | Error e => (Error e, after w (reads ++ [EvResolveContext (Some c)]))
      end.
Proof.
  intros Hd Hm Hnm Hu Hn Hc reads.
  unfold envSetCmd, Getwd, Find. simpl. run. rewrite Hd. simpl.
  rewrite Hm. simpl. rewrite Hnm.
  rewrite (commonEnvFlags_run flags _ u n c Hu Hn Hc).
  unfold after. simpl. rewrite <- !app_assoc. simpl.
  destruct (negb (String.eqb c "") && negb (String.eqb u "")); [done|].
  rewrite len_zero. unfold resolveContext, NewEnvSetCmd. run.
  destruct (String.eqb c ""); simpl; [done|].
  rewrite <- !app_assoc. simpl.
  by destruct (kubeconfig h (Some c)) as [[uri' ns]|e].
Qed.

(** C2: [set] never uses the namespace of a resolved context: the whole
    run is the same whatever namespace the resolver answers.  With a
    non-empty [context] flag the resolved uri is the new uri and the
    namespace handed to the store is the [namespace] flag; [add] on a
    flag set with an empty [namespace] flag hands the store the resolved
    namespace. *)
Theorem set_takes_uri_only_from_context (h : Host) (name : string)
    (flags : FlagSet) (w : World) :
  (∀ (args : list string) (uri' ns ns' : string),
     envSetCmd (withKubeconfig h (fun _ => Ok (uri', ns))) args flags w
     = envSetCmd (withKubeconfig h (fun _ => Ok (uri', ns'))) args flags w)
  ∧ (∀ d m nm n c uri' ns,
       os_Getwd h = Ok d → metadata_Find h (AbsPath d) = Ok m →
       lookupFlag flags flagEnvName = Some nm →
       lookupFlag flags flagEnvURI = Some "" →
       lookupFlag flags flagEnvNamespace = Some n →
       lookupFlag flags flagEnvContext = Some c → c ≠ "" →
       kubeconfig h (Some c) = Ok (uri', ns) →
       envSetCmd h [name] flags w
       = EnvSetCmd_Run h (mkEnvSetCmd name nm uri' n m)
           (after w [EvGetwd; EvFind (AbsPath d); EvGetString flagEnvName;
                     EvGetString flagEnvURI; EvGetString flagEnvNamespace;
                     EvGetString flagEnvContext; EvResolveContext (Some c)]))
  ∧ (∀ d m c v uri' ns,
       os_Getwd h = Ok d → metadata_Find h (AbsPath d) = Ok m →
       lookupFlag flags flagEnvURI = Some "" →
       lookupFlag flags flagEnvNamespace = Some "" →
       lookupFlag flags flagEnvContext = Some c → c ≠ "" →
       lookupFlag flags flagAPISpec = Some v →
       kubeconfig h (Some c) = Ok (uri', ns) →
       envAddCmd h [name] flags w
       = EnvAddCmd_Run h (mkEnvAddCmd name uri' ns v m)
           (after w [EvGetString flagEnvURI; EvGetString flagEnvNamespace;
                     EvGetString flagEnvContext; EvResolveContext (Some c);
                     EvGetwd; EvFind (AbsPath d); EvGetString flagAPISpec])).
Proof.
  split; [|split].
  - intros args uri' ns ns'.
    unfold envSetCmd, Getwd, Find, resolveContext, withKubeconfig. simpl.
    destruct (negb (length args =? 1)%nat); [done|]. run.
    destruct (os_Getwd h) as [d|e]; [simpl|done].
    destruct (metadata_Find h (AbsPath d)) as [m|e]; [simpl|done].
    destruct (lookupFlag flags flagEnvName) as [nm|]; [|done].
    destruct (commonEnvFlags flags _) as [[[[u n] c]|e] w2]; [|done].
    by destruct (negb (String.length c =? 0)%nat).
  - intros d m nm n c uri' ns Hd Hm Hnm Hu Hn Hc Hc0 Hk.
    rewrite (envSetCmd_run h name flags w d m nm "" n c Hd Hm Hnm Hu Hn Hc).
    by rewrite (eqb_empty_false c Hc0), Hk.
  - intros d m c v uri' ns Hd Hm Hu Hn Hc Hc0 Hv Hk.
    rewrite (envAddCmd_run h name flags w "" "" c Hu Hn Hc).
    rewrite (eqb_empty_false c Hc0). simpl. rewrite Hk.
    rewrite (envAddCmd_finish_run _ _ _ _ _ _ d m v Hd Hm Hv).
    by rewrite after_after.
Qed.

Lemma set_takes_uri_only_from_context_witness :
  envSetCmd sampleHost ["default"] (setFlags [("context", "dev")]) sampleWorld
  = EnvSetCmd_Run sampleHost
      (mkEnvSetCmd "default" "" "https://dev:6443" "" (mkManager "/app"))
      (after sampleWorld
         [EvGetwd; EvFind (AbsPath "/app"); EvGetString flagEnvName;
          EvGetString flagEnvURI; EvGetString flagEnvNamespace;
          EvGetString flagEnvContext; EvResolveContext (Some "dev")]).
Proof.
  apply (proj1 (proj2 (set_takes_uri_only_from_context sampleHost "default"
                         (setFlags [("context", "dev")]) sampleWorld))
           "/app" (mkManager "/app") "" "" "dev" "https://dev:6443" "dev-ns");
    try reflexivity.
  discriminate.
Defined.

(** ** The [api-spec] flag *)

Lemma lookupFlag_app (l1 l2 : list (string * string)) k :
  lookupFlag (l1 ++ l2) k
  = match lookupFlag l1 k with
    | Some x => Some x
    | None => lookupFlag l2 k
    end.
Proof.
  induction l1 as [|[n v] l1 IH]; simpl; [done|].
  by destruct (String.eqb n k).
Qed.

Lemma lookupFlag_setFlag declared n v declared' k :
  setFlag declared n v = Some declared' →
  lookupFlag declared' k
  = if String.eqb n k then Some v else lookupFlag declared k.
Proof.
  revert declared'.
  induction declared as [|[n0 v0] declared IH]; simpl; intros declared' H;
    [done|].
  destruct (String.eqb n0 n) eqn:E.
  - apply String.eqb_eq in E as ->. injection H as <-. simpl.
    by destruct (String.eqb n k).
  - destruct (setFlag declared n v) as [rest|]; [|done].
    injection H as <-. simpl.
    destruct (String.eqb n0 k) eqn:E2; [|by apply IH].
    apply String.eqb_eq in E2 as ->. by rewrite String.eqb_sym, E.
Qed.

(** A parsed flag holds the last value given for it, or else the value
    it was declared with. *)
Lemma lookupFlag_parseFlags declared given flags k :
  parseFlags declared given = Ok flags →
  lookupFlag flags k
  = match lookupFlag (reverse given) k with
    | Some x => Some x
    | None => lookupFlag declared k
    end.
Proof.
  revert declared.
  induction given as [|[n v] given IH]; simpl; intros declared H.
  - by injection H as <-.
  - destruct (setFlag declared n v) as [declared'|] eqn:Hset; [|done].
    rewrite (IH _ H), reverse_cons, lookupFlag_app. simpl.
    destruct (lookupFlag (reverse given) k); [done|].
    rewrite (lookupFlag_setFlag _ _ _ _ k Hset).
    by destruct (String.eqb n k).
Qed.

Lemma lookupFlag_not_given (given : list (string * string)) k :
  k ∉ given.*1 → lookupFlag given k = None.
Proof.
  induction given as [|[n v] given IH]; simpl; [done|].
  intros Hk. apply not_elem_of_cons in Hk as [Hne Hk].
  destruct (String.eqb n k) eqn:E; [|by apply IH].
  by apply String.eqb_eq in E.
Qed.

Lemma newEvents_same w : newEvents w w = [].
Proof. unfold newEvents. by rewrite drop_all. Qed.

(** C9: the flag set of [env add] always holds a value for [api-spec]:
    the last one given on the command line, and ["version:v1.7.0"] when
    none was given.  Whenever [add] starts a [create], the spec it hands
    over carries exactly that value as its [apiSpecVersion]. *)
Theorem add_api_spec_defaults (given : list (string * string))
    (flags : FlagSet) :
  parseFlags envAddCmd_PersistentFlags given = Ok flags →
  let v := default "version:v1.7.0" (lookupFlag (reverse given) flagAPISpec) in
  lookupFlag flags flagAPISpec = Some v
  ∧ (flagAPISpec ∉ given.*1 → v = "version:v1.7.0")
  ∧ (∀ h args w nm spec,
       EvCreate nm spec ∈ newEvents w (envAddCmd h args flags w).2 →
       apiSpecVersion spec = v)
  ∧ (∀ h name w u n d m nm,
       lookupFlag flags flagEnvURI = Some u → u ≠ "" →
       lookupFlag flags flagEnvNamespace = Some n →
       lookupFlag flags flagEnvContext = Some "" →
       os_Getwd h = Ok d → metadata_Find h (AbsPath d) = Ok m →
       normalize (safeChar h) name = Ok nm →
       envAddCmd h [name] flags w
       = onTree (Store.create (faulty h) nm (mkSpec u n v))
           (after w [EvGetString flagEnvURI; EvGetString flagEnvNamespace;
                     EvGetString flagEnvContext; EvGetwd; EvFind (AbsPath d);
                     EvGetString flagAPISpec; EvCreate nm (mkSpec u n v)])).
Proof.
  intros Hparse v.
  pose proof (lookupFlag_parseFlags _ _ _ flagAPISpec Hparse) as Hv.
  pose proof (lookupFlag_parseFlags _ _ _ flagEnvURI Hparse) as Hu.
  pose proof (lookupFlag_parseFlags _ _ _ flagEnvNamespace Hparse) as Hn.
  pose proof (lookupFlag_parseFlags _ _ _ flagEnvContext Hparse) as Hc.
  assert (Hv' : lookupFlag flags flagAPISpec = Some v).
  { rewrite Hv. subst v.
    by destruct (lookupFlag (reverse given) flagAPISpec). }
  split; [exact Hv'|]. split; [|split].
  - intros Hnot. subst v. rewrite lookupFlag_not_given; [done|].
    rewrite fmap_reverse. by rewrite elem_of_reverse.
  - intros h args w nm spec Hin. pose proof Hin as H.
    destruct args as [|name [|]];
      [|clear Hin|];
      try (rewrite envAddCmd_arity in Hin by done; cbn [snd] in Hin;
           rewrite newEvents_same in Hin; by apply elem_of_nil in Hin).
    rename H into Hin.
    assert (∃ u, lookupFlag flags flagEnvURI = Some u) as [u Hu'].
    { rewrite Hu. destruct (lookupFlag (reverse given) flagEnvURI);
        [eauto | eexists; reflexivity]. }
    assert (∃ n, lookupFlag flags flagEnvNamespace = Some n) as [n Hn'].
    { rewrite Hn. destruct (lookupFlag (reverse given) flagEnvNamespace);
        [eauto | eexists; reflexivity]. }
    assert (∃ c, lookupFlag flags flagEnvContext = Some c) as [c Hc'].
    { rewrite Hc. destruct (lookupFlag (reverse given) flagEnvContext);
        [eauto | eexists; reflexivity]. }
    rewrite (envAddCmd_run h name flags w u n c Hu' Hn' Hc') in Hin.
    assert (Hfin : ∀ a b pre,
      EvCreate nm spec ∈ newEvents w (envAddCmd_finish h name flags a b
                                        (after w pre)).2 →
      EvCreate nm spec ∉ pre → apiSpecVersion spec = v).
    { intros a b pre Hev Hpre.
      destruct (envAddCmd_finish_events h name flags a b (after w pre))
        as (evs & Htr & _ & Hcreate).
      unfold newEvents in Hev. rewrite Htr in Hev. unfold after in Hev.
      simpl in Hev. rewrite <- app_assoc, drop_app_length in Hev.
      apply elem_of_app in Hev as [Hev|Hev]; [done|].
      destruct (Hcreate _ _ Hev) as (v0 & Hv0 & ->). simpl. congruence. }
    destruct (negb (String.eqb c "") && negb (String.eqb u "")).
    { cbn [snd] in Hin. rewrite newEvents_after in Hin. no_event Hin. }
    destruct (String.eqb u "").
    + destruct (kubeconfig h _) as [[uri' ns]|e].
      * apply (Hfin _ _ _ Hin). intros H. no_event H.
      * cbn [snd] in Hin. rewrite newEvents_after in Hin. no_event Hin.
    + apply (Hfin _ _ _ Hin). intros H. no_event H.
  - intros h name w u n d m nm Hu' Hu0 Hn' Hc' Hd Hm Hnm.
    rewrite (envAddCmd_run h name flags w u n "" Hu' Hn' Hc'). simpl.
    rewrite (eqb_empty_false u Hu0).
    rewrite (envAddCmd_finish_run _ _ _ _ _ _ d m v Hd Hm Hv').
    unfold EnvAddCmd_Run. run. rewrite Hnm. simpl.
    by rewrite <- !app_assoc.
Qed.

Lemma add_api_spec_defaults_witness :
  lookupFlag (addFlags [("namespace", "staging")]) flagAPISpec
  = Some "version:v1.7.0".
Proof.
  apply (add_api_spec_defaults [("namespace", "staging")]
           (addFlags [("namespace", "staging")])).
  reflexivity.
Defined.

(** ** Names *)

Lemma splitBy_not_nil f s : splitBy f s ≠ [].
Proof.
  destruct s as [|c s]; simpl; [done|].
  destruct (f c); [done|]. by destruct (splitBy f s).
Qed.

(** No piece of a split holds a separator. *)
Lemma splitBy_pieces f s :
  Forall (fun seg => anyChar f seg = false) (splitBy f s).
Proof.
  induction s as [|c s IH]; simpl.
  - by repeat constructor.
  - destruct (f c) eqn:Hc; [by constructor|].
    destruct (splitBy f s) as [|seg segs]; simpl.
    + repeat constructor. simpl. by rewrite Hc.
    + inversion IH as [|?? Hseg Hsegs]; subst.
      constructor; [|done]. simpl. by rewrite Hc.
Qed.

(** Joining the pieces with [/] gives the string back. *)
Lemma canonical_splitBy s : canonical (splitBy isSlash s) = s.
Proof.
  unfold canonical. induction s as [|c s IH]; simpl; [done|].
  pose proof (splitBy_not_nil isSlash s) as Hne.
  destruct (isSlash c) eqn:Hc.
  - unfold isSlash in Hc. apply Ascii.eqb_eq in Hc as ->.
    destruct (splitBy isSlash s) as [|seg segs]; [done|].
    simpl in *. by rewrite IH.
  - destruct (splitBy isSlash s) as [|seg segs]; [done|].
    simpl in *. destruct segs; simpl in *; by rewrite <- IH.
Qed.

Lemma splitBy_plain f s : anyChar f s = false → splitBy f s = [s].
Proof.
  induction s as [|c s IH]; simpl; [done|].
  intros [Hc Hs]%orb_false_elim. by rewrite Hc, (IH Hs).
Qed.

Lemma splitBy_app f a sep rest :
  anyChar f a = false → f sep = true →
  splitBy f (a +:+ String sep rest) = a :: splitBy f rest.
Proof.
  intros Ha Hsep. induction a as [|c a IH]; simpl.
  - by rewrite Hsep.
  - simpl in Ha. apply orb_false_elim in Ha as [Hc Ha].
    by rewrite Hc, (IH Ha).
Qed.

(** Splitting a canonical name on every separator gives its segments,
    provided no segment holds a separator. *)
Lemma splitBy_canonical segs :
  segs ≠ [] → Forall (fun seg => anyChar isSeparator seg = false) segs →
  splitBy isSeparator (canonical segs) = segs.
Proof.
  unfold canonical. induction segs as [|a segs IH]; [done|].
  intros _ Hall. inversion Hall as [|?? Ha Hsegs]; subst.
  destruct segs as [|b segs]; simpl.
  - by apply splitBy_plain.
  - change (String.append a (String.append "/" ?x))
      with (a +:+ String "/"%char x).
    rewrite splitBy_app; [|done|done]. f_equal. by apply IH.
Qed.

Lemma cleanFrom_plain stack segs :
  Forall (fun seg => seg ≠ "" ∧ seg ≠ "." ∧ seg ≠ "..") segs →
  cleanFrom stack segs = Some (reverse stack ++ segs).
Proof.
  revert stack. induction segs as [|seg segs IH]; intros stack Hall; simpl.
  - by rewrite app_nil_r.
  - inversion Hall as [|?? (H0 & H1 & H2) Hsegs]; subst.
    apply String.eqb_neq in H0, H1, H2. rewrite H0, H1, H2. simpl.
    rewrite (IH _ Hsegs), reverse_cons. by rewrite <- app_assoc.
Qed.

Lemma badSegment_false safe seg :
  badSegment safe seg = false ↔ goodSegment safe seg.
Proof.
  unfold badSegment, goodSegment.
  rewrite !orb_false_iff, !String.eqb_neq. tauto.
Qed.

Lemma normalize_ok safe raw segs :
  normalize safe raw = Ok segs →
  raw ≠ "" ∧ segs = splitBy isSlash raw ∧ Forall (goodSegment safe) segs.
Proof.
  unfold normalize. destruct (String.eqb raw "") eqn:Hraw; [done|].
  destruct (find _ _) as [seg|] eqn:Hfind; [done|].
  intros [= <-]. split; [by apply String.eqb_neq|]. split; [done|].
  apply Forall_forall. intros seg Hin. apply badSegment_false.
  apply (find_none _ _ Hfind). by apply list_elem_of_In.
Qed.

(** C8: [normalize] is a function of the raw string alone that answers
    either the [/]-separated segments or [InvalidNameError].  It refuses
    the empty string and every string with a segment that is empty, [.],
    [..], or holds a separator or a character outside the safe set.  What
    it accepts is the canonical form of its segments, and the path that
    form resolves to lies below the environments root, at exactly those
    segments. *)
Theorem normalize_rejects_unsafe_names (safe : ascii → bool) (raw : string) :
  ((∃ segs, normalize safe raw = Ok segs)
   ∨ (∃ seg, normalize safe raw = Error (InvalidNameError seg)))
  ∧ ((raw = ""
      ∨ ∃ seg, seg ∈ splitBy isSlash raw
          ∧ (seg = "" ∨ seg = "." ∨ seg = ".."
             ∨ anyChar isSeparator seg = true
             ∨ anyChar (fun c => negb (safe c)) seg = true)) →
     ∃ seg, normalize safe raw = Error (InvalidNameError seg))
  ∧ (∀ segs, normalize safe raw = Ok segs →
       segs = splitBy isSlash raw
       ∧ canonical segs = raw
       ∧ Forall (goodSegment safe) segs
       ∧ resolveUnderRoot (canonical segs) = Some segs).
Proof.
  split; [|split].
  - unfold normalize. destruct (String.eqb raw ""); [eauto|].
    destruct (find _ _); eauto.
  - intros Hbad. unfold normalize.
    destruct (String.eqb raw "") eqn:Hraw; [eauto|].
    destruct (find _ _) as [seg|] eqn:Hfind; [eauto|].
    destruct Hbad as [->|(seg & Hin & Hseg)]; [done|].
    apply list_elem_of_In in Hin.
    pose proof (find_none _ _ Hfind _ Hin) as Hgood.
    apply badSegment_false in Hgood as (H0 & H1 & H2 & H3 & H4).
    destruct Hseg as [?|[?|[?|[?|?]]]]; congruence.
  - intros segs Hok.
    destruct (normalize_ok _ _ _ Hok) as (Hraw & -> & Hgood).
    split; [done|]. split; [apply canonical_splitBy|]. split; [done|].
    unfold resolveUnderRoot. rewrite splitBy_canonical.
    + rewrite cleanFrom_plain; [done|].
      eapply Forall_impl; [exact Hgood|]. unfold goodSegment. tauto.
    + apply splitBy_not_nil.
    + eapply Forall_impl; [exact Hgood|]. unfold goodSegment. tauto.
Qed.

Lemma normalize_rejects_unsafe_names_witness :
  "." ∈ splitBy isSlash "us-west/./staging"
  ∧ ∃ seg, normalize plainChar "us-west/./staging"
           = Error (InvalidNameError seg).
Proof.
  assert (Hin : "." ∈ splitBy isSlash "us-west/./staging").
  { apply list_elem_of_In. simpl. tauto. }
  split; [exact Hin|].
  apply (normalize_rejects_unsafe_names plainChar "us-west/./staging").
  right. exists ".". split; [exact Hin|]. right. left. reflexivity.
Defined.

(** ** The store: refusing a duplicate *)

Lemma envExists_readSpec fs name :
  Store.envExists fs name = true ↔ ∃ s, Store.readSpec fs name = Some s.
Proof.
  unfold Store.envExists, Store.readSpec.
  destruct (fs !! Store.specPath name) as [[]|];
    (split; [intros Hex; by eauto | by intros [s' Hs']]).
Qed.

Lemma envExists_leaves fs q :
  Store.envExists fs q = true → ∃ s, (q, s) ∈ Store.leaves fs.
Proof.
  unfold Store.envExists.
  destruct (fs !! Store.specPath q) as [[|s|]|] eqn:Hq; try done.
  intros _. exists s. unfold Store.leaves. apply list_elem_of_omap.
  exists (Store.specPath q, SpecFile s). split.
  - by apply elem_of_map_to_list.
  - unfold Store.leafOf, Store.specPath. simpl.
    rewrite last_snoc, bool_decide_true by done.
    by rewrite removelast_last.
Qed.

Lemma elem_of_strictPrefixes (q name : list string) :
  q `prefix_of` name → q ≠ name → q ∈ Store.strictPrefixes name.
Proof.
  intros [k ->] Hne. unfold Store.strictPrefixes.
  apply list_elem_of_fmap. exists (length q). split.
  - by rewrite take_app_length.
  - apply elem_of_seq. rewrite length_app.
    destruct k; [by rewrite app_nil_r in Hne|]. simpl. lia.
Qed.

(** C5: [create] refuses a name that exists, a name that has an existing
    leaf on its path, and a name that would sit above an existing leaf;
    it answers [DuplicateEnvironmentError] and the tree it leaves is the
    tree it was given. *)
Theorem create_duplicate_leaves_tree (faulty : Prim → bool)
    (fs : gmap (list string) Entry) (name : list string)
    (spec : EnvironmentSpec) :
  Store.envExists fs name = true
  ∨ (∃ q, q `prefix_of` name ∧ q ≠ name ∧ Store.envExists fs q = true)
  ∨ (∃ q, name `prefix_of` q ∧ name ≠ q ∧ Store.envExists fs q = true) →
  Store.create faulty name spec fs = (Error DuplicateEnvironmentError, fs).
Proof.
  intros Hdup. unfold Store.create.
  replace (_ || _ || _) with true; [done|]. symmetry.
  destruct Hdup as [Hex|[(q & Hpre & Hne & Hex)|(q & Hpre & Hne & Hex)]].
  - by rewrite Hex.
  - apply orb_true_iff. left. apply orb_true_iff. right.
    apply existsb_exists. exists q. split; [|done].
    apply list_elem_of_In. by apply elem_of_strictPrefixes.
  - apply orb_true_iff. right.
    destruct (envExists_leaves _ _ Hex) as [s Hin].
    apply existsb_exists. exists (q, s). split; [by apply list_elem_of_In|].
    unfold Store.strictPrefixOf. simpl.
    by rewrite bool_decide_true, bool_decide_false.
Qed.

Lemma create_duplicate_leaves_tree_witness :
  Store.envExists sampleTree ["us-west"; "staging"] = true
  ∧ Store.create (faulty sampleHost) ["us-west"] stagingSpec sampleTree
    = (Error DuplicateEnvironmentError, sampleTree).
Proof.
  assert (Hex : Store.envExists sampleTree ["us-west"; "staging"] = true)
    by (by vm_compute).
  split; [exact Hex|].
  apply (create_duplicate_leaves_tree (faulty sampleHost) sampleTree
           ["us-west"] stagingSpec).
  right. right. exists ["us-west"; "staging"].
  split; [by exists ["staging"]|]. split; [discriminate|exact Hex].
Defined.

(** ** The store: removal and the pruning walk *)

Lemma reverse_takes_chain (name : list string) n :
  reverse ((λ i, take i name) <$> seq 1 n) = chain name n.
Proof.
  induction n as [|n IH]; [done|].
  by rewrite seq_S, fmap_app, reverse_app, IH.
Qed.

Lemma ancestors_chain name :
  Store.ancestors name = chain name (length name - 1).
Proof.
  unfold Store.ancestors, Store.strictPrefixes.
  destruct (length name) as [|n]; [done|].
  replace (S n - 1) with n by lia. apply reverse_takes_chain.
Qed.

Lemma prefix_is_take (p name : list string) :
  p `prefix_of` name → p = take (length p) name.
Proof. intros [k ->]. by rewrite take_app_length. Qed.

Lemma take_prefix_le (name : list string) i j :
  i ≤ j → take i name `prefix_of` take j name.
Proof.
  intros Hij. replace (take i name) with (take i (take j name)).
  - apply prefix_take.
  - rewrite take_take. f_equal. lia.
Qed.

(** Below a directory of the line and still on the line means below the
    next directory of the line. *)
Lemma onLine_step (name p : list string) m :
  m < length name → take m name `prefix_of` p → take m name ≠ p →
  onLine name p → take (S m) name `prefix_of` p.
Proof.
  intros Hm Hpre Hne [Hp|Hp].
  - rewrite (prefix_is_take _ _ Hp) in Hne |- *.
    apply take_prefix_le.
    apply prefix_length in Hpre. rewrite length_take_le in Hpre by lia.
    destruct (decide (length p = m)) as [<-|]; [done|]. lia.
  - etrans; [apply prefix_take|done].
Qed.

Lemma prefix_take_S (name p : list string) m :
  m < length name → take (S m) name `prefix_of` p →
  take m name `prefix_of` p ∧ take m name ≠ p.
Proof.
  intros Hm Hpre. split.
  - etrans; [|exact Hpre]. apply take_prefix_le. lia.
  - intros <-. apply prefix_length in Hpre.
    rewrite !length_take_le in Hpre by lia. lia.
Qed.

Lemma onlyLeadsTo_mono fs (name : list string) i j :
  i ≤ j → j < length name →
  onlyLeadsTo fs name (take i name) → onlyLeadsTo fs name (take j name).
Proof.
  intros Hij Hj Hi q Hq Hpre Hne. apply Hi; [done| |].
  - etrans; [|exact Hpre]. by apply take_prefix_le.
  - intros <-. apply prefix_length in Hpre.
    rewrite !length_take_le in Hpre by lia.
    assert (i = j) as -> by lia. done.
Qed.

Lemma dirEmpty_onlyLeadsTo fs (name : list string) m cur :
  m < length name →
  (∀ p, cur !! p = if cut name m p then None else fs !! p) →
  Store.dirEmpty cur (take m name) = true
  ↔ onlyLeadsTo fs name (take m name).
Proof.
  intros Hm Hcur. unfold Store.dirEmpty. rewrite bool_decide_eq_true.
  unfold onlyLeadsTo, Store.strictPrefixOf. split.
  - intros Hall q [e Hq] Hpre Hne.
    pose proof (Hcur q) as Hcq. unfold cut in Hcq.
    destruct (bool_decide (onLine name q)) eqn:Hline;
      [by apply bool_decide_eq_true in Hline|].
    rewrite andb_false_r, Hq in Hcq.
    pose proof (Hall q e Hcq) as Hfalse. simpl in Hfalse.
    by rewrite bool_decide_true, bool_decide_false in Hfalse.
  - intros Hlead p e Hp. simpl.
    pose proof (Hcur p) as Hcp. rewrite Hp in Hcp.
    destruct (cut name m p) eqn:Hcut; [done|].
    destruct (decide (take m name `prefix_of` p)) as [Hpre|Hpre];
      [|by rewrite bool_decide_false].
    destruct (decide (take m name = p)) as [Heq|Hne];
      [by rewrite (bool_decide_true (_ = _)), andb_false_r|].
    exfalso. assert (Hline : onLine name p) by (apply Hlead; eauto).
    unfold cut in Hcut.
    rewrite (bool_decide_true (onLine _ _)), bool_decide_true in Hcut;
      [done| |done].
    by apply onLine_step.
Qed.

(** The pruning walk, started below depth [m] on a tree from which the
    line deeper than [m] is gone, ends with the line deeper than some [k]
    gone: [k] is the deepest ancestor that still holds something else, or
    the root. *)
Lemma prune_chain faulty fs (name : list string) m cur :
  (∀ p, faulty (PRemove p) = false) →
  m < length name →
  (∀ p, cur !! p = if cut name m p then None else fs !! p) →
  ∃ k fs', k ≤ m
    ∧ Store.prune faulty (chain name m) cur = (Ok (), fs')
    ∧ (∀ p, fs' !! p = if cut name k p then None else fs !! p)
    ∧ (k = 0 ∨ ¬ onlyLeadsTo fs name (take k name))
    ∧ (∀ j, k < j → j ≤ m → onlyLeadsTo fs name (take j name)).
Proof.
  intros Hfault. revert cur. induction m as [|m IH]; intros cur Hm Hcur.
  - exists 0, cur. split; [done|]. split; [done|]. split; [done|].
    split; [by left|]. intros; lia.
  - simpl chain. cbn [Store.prune].
    pose proof (dirEmpty_onlyLeadsTo fs name (S m) cur Hm Hcur) as Hempty.
    destruct (Store.dirEmpty cur (take (S m) name)) eqn:E.
    + assert (Hlead : onlyLeadsTo fs name (take (S m) name))
        by (by apply Hempty).
      unfold Store.removeDir. rewrite Hfault.
      destruct (IH (Store.unlink (take (S m) name) cur)) as
        (k & fs' & Hk & Hrun & Hfs' & Hstop & Hall); [lia| |].
      { intros p. unfold Store.unlink. rewrite lookup_delete.
        case_decide as Hp.
        - subst p. unfold cut.
          rewrite bool_decide_true, bool_decide_true; [done| |done].
          left. apply prefix_take.
        - rewrite Hcur. unfold cut.
          destruct (bool_decide (onLine name p)) eqn:Hline;
            [|by rewrite !andb_false_r].
          apply bool_decide_eq_true in Hline. rewrite !andb_true_r.
          destruct (decide (take (S m) name `prefix_of` p)) as [Hpre|Hpre].
          + rewrite (bool_decide_true _ Hpre), bool_decide_true; [done|].
            by apply onLine_step.
          + rewrite (bool_decide_false _ Hpre), bool_decide_false; [done|].
            intros Hpre'. apply Hpre. by apply prefix_take_S. }
      exists k, fs'. split; [lia|]. split; [done|]. split; [done|].
      split; [done|]. intros j Hkj Hj.
      destruct (decide (j = S m)) as [->|]; [done|]. apply Hall; lia.
    + exists (S m), cur. split; [done|]. split; [done|]. split; [done|].
      split; [|intros; lia]. right. intros Hlead.
      apply Hempty in Hlead. congruence.
Qed.

(** [delete] on a healthy disk: the leaf's subtree goes, and so does every
    ancestor that held nothing else, up to the first that does or to the
    root. *)
Lemma delete_run faulty fs (name : list string) :
  (∀ p, faulty (PRemoveAll p) = false) →
  (∀ p, faulty (PRemove p) = false) →
  name ≠ [] → Store.envExists fs name = true →
  ∃ k fs', k < length name
    ∧ Store.delete faulty name fs = (Ok (), fs')
    ∧ (∀ p, fs' !! p = if cut name k p then None else fs !! p)
    ∧ (k = 0 ∨ ¬ onlyLeadsTo fs name (take k name))
    ∧ (∀ j, k < j → j < length name → onlyLeadsTo fs name (take j name)).
Proof.
  intros Hall Hrm Hname Hex. unfold Store.delete, Store.removeAll.
  rewrite Hex, Hall. simpl. rewrite ancestors_chain.
  assert (Hlen : length name - 1 < length name).
  { destruct name; [done|]. simpl. lia. }
  destruct (prune_chain faulty fs name (length name - 1)
              (filter (λ pe, ¬ name `prefix_of` pe.1) fs))
    as (k & fs' & Hk & Hrun & Hfs' & Hstop & Hlead); [done|done| |].
  { intros p. unfold cut.
    replace (S (length name - 1)) with (length name) by lia.
    rewrite firstn_all.
    destruct (decide (name `prefix_of` p)) as [Hpre|Hpre].
    - rewrite (bool_decide_true _ Hpre), bool_decide_true by (by right).
      simpl. apply map_lookup_filter_None. right. intros e _ Hno.
      by apply Hno.
    - rewrite (bool_decide_false _ Hpre). simpl.
      destruct (fs !! p) as [e|] eqn:Hp.
      + by apply map_lookup_filter_Some.
      + apply map_lookup_filter_None. by left. }
  exists k, fs'. split; [lia|]. split; [done|]. split; [done|].
  split; [done|]. intros j Hkj Hj. apply Hlead; lia.
Qed.

(** C4: [env rm] of an existing environment on a healthy disk removes the
    leaf directory with everything below it, then every ancestor that is
    left empty, walking upward until an ancestor holds something else or
    the root is reached.  The root stays, an ancestor with another child
    stays as it was, and so does every path off the line through the
    name. *)
Theorem remove_prunes_empty_ancestors (h : Host) (raw : string) (w : World)
    (d : string) (m : Manager) (name : list string) :
  (∀ p, faulty h (PRemoveAll p) = false) →
  (∀ p, faulty h (PRemove p) = false) →
  os_Getwd h = Ok d → metadata_Find h (AbsPath d) = Ok m →
  normalize (safeChar h) raw = Ok name →
  Store.envExists (tree w) name = true →
  ∃ t,
    envRmCmd h [raw] w
    = (Ok (), mkWorld t (trace w ++ [EvGetwd; EvFind (AbsPath d);
                                     EvDelete name]) (stdout w))
    ∧ (∀ p, name `prefix_of` p → t !! p = None)
    ∧ (∀ p, p `prefix_of` name → p ≠ name → p ≠ [] →
         (onlyLeadsTo (tree w) name p → t !! p = None)
         ∧ (¬ onlyLeadsTo (tree w) name p → t !! p = tree w !! p))
    ∧ t !! [] = tree w !! []
    ∧ (∀ p q, p `prefix_of` name → p ≠ name →
         is_Some (tree w !! q) → p `prefix_of` q → ¬ onLine name q →
         t !! p = tree w !! p)
    ∧ (∀ p, ¬ onLine name p → t !! p = tree w !! p).
Proof.
  intros Hall Hrm Hd Hm Hnorm Hex.
  destruct (normalize_ok _ _ _ Hnorm) as (_ & Hsplit & _).
  assert (Hname : name ≠ []) by (subst name; apply splitBy_not_nil).
  destruct (delete_run (faulty h) (tree w) name Hall Hrm Hname Hex)
    as (k & t & Hk & Hrun & Ht & Hstop & Hlead).
  assert (Hroot : t !! [] = tree w !! []).
  { rewrite Ht. unfold cut. rewrite bool_decide_false; [done|].
    intros Hpre%prefix_nil_inv. apply (f_equal length) in Hpre.
    rewrite length_take_le in Hpre by lia. done. }
  assert (Hanc : ∀ p, p `prefix_of` name → p ≠ name → p ≠ [] →
            (onlyLeadsTo (tree w) name p → t !! p = None)
            ∧ (¬ onlyLeadsTo (tree w) name p → t !! p = tree w !! p)).
  { intros p Hp Hne Hnil.
    assert (Hj : length p < length name).
    { destruct Hp as [[|x l] ->]; [by rewrite app_nil_r in Hne|].
      rewrite length_app. simpl. lia. }
    rewrite (prefix_is_take _ _ Hp). split.
    - intros Hempty. rewrite Ht. unfold cut.
      rewrite bool_decide_true, bool_decide_true; [done| |].
      + left. apply prefix_take.
      + apply take_prefix_le.
        destruct (decide (length p ≤ k)) as [Hle|]; [|lia].
        destruct Hstop as [->|Hstop].
        * destruct p; [done|]. simpl in Hle. lia.
        * exfalso. apply Hstop.
          by apply (onlyLeadsTo_mono _ _ (length p) k).
    - intros Hfull. rewrite Ht. unfold cut.
      rewrite bool_decide_false; [done|]. intros Hpre. apply Hfull.
      apply prefix_length in Hpre. rewrite !length_take_le in Hpre by lia.
      apply Hlead; lia. }
  exists t. split; [|split; [|split; [|split; [|split]]]].
  - unfold envRmCmd, Getwd, Find, NewEnvRmCmd, EnvRmCmd_Run. simpl. run.
    rewrite Hd. simpl. rewrite Hm. simpl. rewrite Hnorm. simpl.
    rewrite Hrun. by rewrite <- !app_assoc.
  - intros p Hp. rewrite Ht. unfold cut.
    rewrite bool_decide_true, bool_decide_true; [done|by right|].
    etrans; [apply prefix_take|done].
  - exact Hanc.
  - exact Hroot.
  - intros p q Hp Hne Hq Hpq Hoff.
    destruct (decide (p = [])) as [->|Hnil]; [done|].
    apply (Hanc p Hp Hne Hnil). intros Hempty. apply Hoff.
    apply (Hempty q Hq Hpq). intros ->. apply Hoff. by left.
  - intros p Hoff. rewrite Ht. unfold cut.
    by rewrite (bool_decide_false (onLine _ _)), andb_false_r.
Qed.

Lemma remove_prunes_empty_ancestors_witness :
  ∃ t,
    envRmCmd sampleHost ["eu/north/prod"] sampleWorld
    = (Ok (), mkWorld t [EvGetwd; EvFind (AbsPath "/app");
                         EvDelete ["eu"; "north"; "prod"]] [])
    ∧ t !! [] = sampleTree !! [].
Proof.
  destruct (remove_prunes_empty_ancestors sampleHost "eu/north/prod"
              sampleWorld "/app" (mkManager "/app") ["eu"; "north"; "prod"])
    as (t & Hrun & _ & _ & Hroot & _).
  - reflexivity.
  - reflexivity.
  - reflexivity.
  - reflexivity.
  - reflexivity.
  - vm_compute. reflexivity.
  - exists t. split; [exact Hrun | exact Hroot].
Defined.

(** ** The store: rename and the update of a spec *)

Lemma swapPrefix_involutive (a b p : list string) :
  ¬ a `prefix_of` b → ¬ b `prefix_of` a →
  Store.swapPrefix a b (Store.swapPrefix a b p) = p.
Proof.
  intros Hab Hba. unfold Store.swapPrefix.
  assert (Hno : ∀ k k', ¬ a `prefix_of` b ++ k ∧ ¬ b `prefix_of` a ++ k').
  { intros k k'. split; intros Hpre.
    - destruct (prefix_weak_total a b (b ++ k)); [done|by exists k|done|done].
    - destruct (prefix_weak_total a b (a ++ k')); [by exists k'|done|done|done]. }
  destruct (decide (a `prefix_of` p)) as [[k ->]|Ha].
  - rewrite (bool_decide_true (a `prefix_of` a ++ k)) by (by exists k).
    rewrite drop_app_length.
    rewrite (bool_decide_false (a `prefix_of` b ++ k)) by apply (Hno k k).
    rewrite (bool_decide_true (b `prefix_of` b ++ k)) by (by exists k).
    by rewrite drop_app_length.
  - rewrite (bool_decide_false _ Ha).
    destruct (decide (b `prefix_of` p)) as [[k ->]|Hb].
    + rewrite (bool_decide_true (b `prefix_of` b ++ k)) by (by exists k).
      rewrite drop_app_length.
      rewrite (bool_decide_true (a `prefix_of` a ++ k)) by (by exists k).
      by rewrite drop_app_length.
    + by rewrite (bool_decide_false _ Hb), (bool_decide_false _ Ha),
        (bool_decide_false _ Hb).
Qed.

(** What a successful [move] leaves at each path. *)
Lemma move_lookup faulty (src dst : list string) fs fs' :
  Store.move faulty src dst fs = Ok fs' →
  ¬ src `prefix_of` dst ∧ ¬ dst `prefix_of` src
  ∧ Store.dirEmpty fs dst = true
  ∧ ∀ p, fs' !! p = Store.unlink dst fs !! Store.swapPrefix src dst p.
Proof.
  unfold Store.move. destruct (faulty _); [done|].
  case_bool_decide as Hsd; [done|].
  destruct (fs !! src) as [es|] eqn:Hsrc; [|done].
  assert (Hempty : (match es, fs !! dst with
                    | _, None => Store.dirEmpty fs dst
                    | Dir, Some Dir => Store.dirEmpty fs dst
                    | _, _ => false
                    end) = true → Store.dirEmpty fs dst = true).
  { destruct es, (fs !! dst) as [[]|]; done. }
  destruct (match es, fs !! dst with
            | _, None => Store.dirEmpty fs dst
            | Dir, Some Dir => Store.dirEmpty fs dst
            | _, _ => false
            end) eqn:Hfree; [|done].
  specialize (Hempty eq_refl). intros [= <-].
  assert (Hds : ¬ dst `prefix_of` src).
  { intros Hpre. unfold Store.dirEmpty in Hempty.
    apply bool_decide_eq_true in Hempty.
    specialize (Hempty src es Hsrc). simpl in Hempty.
    unfold Store.strictPrefixOf in Hempty.
    rewrite (bool_decide_true _ Hpre), bool_decide_false in Hempty; [done|].
    intros ->. by apply Hsd. }
  split; [done|]. split; [done|]. split; [done|].
  intros p.
  assert (Hinj : Inj (=) (=) (Store.swapPrefix src dst)).
  { intros x y Hxy. rewrite <- (swapPrefix_involutive src dst x Hsd Hds).
    rewrite Hxy. by apply swapPrefix_involutive. }
  rewrite <- (swapPrefix_involutive src dst p Hsd Hds) at 1.
  by rewrite (lookup_kmap (Store.swapPrefix src dst)).
Qed.

(** [mkdirAll] adds directories at free paths and changes nothing else. *)
Lemma mkdirAll_lookup faulty dirs created fs r created' fs' :
  Store.mkdirAll faulty dirs created fs = (r, created', fs') →
  ∀ p, fs' !! p = fs !! p ∨ (fs !! p = None ∧ fs' !! p = Some Dir).
Proof.
  revert created fs. induction dirs as [|d dirs IH]; simpl;
    intros created fs Hrun p.
  - injection Hrun as _ _ <-. by left.
  - destruct (fs !! d) as [[]|] eqn:Hd;
      try (injection Hrun as _ _ <-; by left).
    + by apply (IH _ _ Hrun).
    + unfold Store.mkdir in Hrun. destruct (faulty _).
      * injection Hrun as _ _ <-. by left.
      * destruct (IH _ _ Hrun p) as [Heq|[Hnone Hdir]].
        -- rewrite Heq. destruct (decide (d = p)) as [<-|Hne].
           ++ right. by rewrite lookup_insert_eq.
           ++ left. by rewrite lookup_insert_ne.
        -- right. split; [|done].
           destruct (decide (d = p)) as [<-|Hne].
           ++ by rewrite lookup_insert_eq in Hnone.
           ++ by rewrite lookup_insert_ne in Hnone.
Qed.

Lemma mkdirAll_readSpec faulty dirs created fs r created' fs' name :
  Store.mkdirAll faulty dirs created fs = (r, created', fs') →
  Store.readSpec fs' name = Store.readSpec fs name.
Proof.
  intros Hrun. unfold Store.readSpec.
  destruct (mkdirAll_lookup _ _ _ _ _ _ _ Hrun (Store.specPath name))
    as [->|[-> ->]]; done.
Qed.

(** The pruning walk removes nothing but directories of its list. *)
Lemma prune_lookup faulty ups fs r fs' :
  Store.prune faulty ups fs = (r, fs') →
  ∀ p, (p ∉ ups → fs' !! p = fs !! p) ∧ (fs !! p = None → fs' !! p = None).
Proof.
  revert fs. induction ups as [|d ups IH]; simpl; intros fs Hrun p.
  - by injection Hrun as _ <-.
  - destruct (Store.dirEmpty fs d); [|by injection Hrun as _ <-].
    unfold Store.removeDir in Hrun.
    destruct (faulty _); [by injection Hrun as _ <-|].
    destruct (IH _ Hrun p) as [Hkeep Hnone]. unfold Store.unlink in *. split.
    + intros [Hne Hnot]%not_elem_of_cons.
      by rewrite (Hkeep Hnot), lookup_delete_ne.
    + intros Hp. apply Hnone. rewrite lookup_delete. by case_decide.
Qed.

Lemma elem_of_ancestors (p name : list string) :
  p ∈ Store.ancestors name → p `prefix_of` name.
Proof.
  rewrite ancestors_chain. generalize (length name - 1).
  induction n as [|n IH]; simpl; [by intros ?%elem_of_nil|].
  intros [->|Hin]%elem_of_cons; [apply prefix_take|by apply IH].
Qed.

(** After a successful [rename] the environment is found under the new
    name with the spec it had, and no longer under the old one. *)
Lemma rename_ok faulty (oldName newName : list string) fs fs' :
  Store.rename faulty oldName newName fs = (Ok (), fs') →
  Store.envExists fs oldName = true
  ∧ Store.readSpec fs' newName = Store.readSpec fs oldName
  ∧ Store.envExists fs' newName = true
  ∧ Store.envExists fs' oldName = false.
Proof.
  unfold Store.rename.
  destruct (Store.envExists fs oldName) eqn:Hold; [simpl|done].
  destruct (Store.envExists fs newName) eqn:Hnew; [done|].
  destruct (Store.mkdirAll _ _ _ _) as [[r created] fs1] eqn:Hmk.
  destruct r as [[]|e]; [|done].
  destruct (Store.move faulty oldName newName fs1) as [fs2|e] eqn:Hmv; [|done].
  intros Hprune.
  destruct (move_lookup _ _ _ _ _ Hmv) as (Hon & Hno & Hempty & Hfs2).
  assert (Hspec : Store.specPath newName ∉ Store.ancestors oldName).
  { intros Hin%elem_of_ancestors. apply Hno.
    etrans; [|exact Hin]. by exists ["spec.json"]. }
  assert (Hgone : fs2 !! Store.specPath oldName = None).
  { rewrite Hfs2. unfold Store.swapPrefix, Store.specPath, Store.unlink.
    rewrite bool_decide_true by (by exists ["spec.json"]).
    rewrite drop_app_length, lookup_delete_ne.
    - apply eq_None_not_Some. intros [e He].
      apply bool_decide_eq_true in Hempty.
      specialize (Hempty _ _ He). simpl in Hempty.
      unfold Store.strictPrefixOf in Hempty.
      rewrite bool_decide_true, bool_decide_false in Hempty; [done| |].
      + intros Heq. apply (f_equal length) in Heq.
        rewrite length_app in Heq. simpl in Heq. lia.
      + by exists ["spec.json"].
    - intros Heq. apply (f_equal length) in Heq.
      rewrite length_app in Heq. simpl in Heq. lia. }
  assert (Hmoved : fs2 !! Store.specPath newName
                   = fs1 !! Store.specPath oldName).
  { rewrite Hfs2. unfold Store.swapPrefix, Store.specPath, Store.unlink.
    rewrite bool_decide_false.
    - rewrite bool_decide_true by (by exists ["spec.json"]).
      rewrite drop_app_length, lookup_delete_ne; [done|].
      intros ->. apply Hon. by exists ["spec.json"].
    - intros Hpre.
      destruct (prefix_weak_total oldName newName (newName ++ ["spec.json"]));
        [done|by exists ["spec.json"]|done|done]. }
  destruct (prune_lookup _ _ _ _ _ Hprune (Store.specPath newName))
    as [Hkeep _].
  destruct (prune_lookup _ _ _ _ _ Hprune (Store.specPath oldName))
    as [_ Hnone].
  assert (Hread : Store.readSpec fs' newName = Store.readSpec fs oldName).
  { rewrite <- (mkdirAll_readSpec _ _ _ _ _ _ _ oldName Hmk).
    unfold Store.readSpec. by rewrite (Hkeep Hspec), Hmoved. }
  split; [done|]. split; [done|]. split.
  - apply envExists_readSpec. rewrite Hread. by apply envExists_readSpec.
  - unfold Store.envExists. by rewrite (Hnone Hgone).
Qed.

(** A failed [updateSpec] leaves the tree as it was. *)
Lemma updateSpec_error faulty name mutate fs e fs' :
  Store.updateSpec faulty name mutate fs = (Error e, fs') → fs' = fs.
Proof.
  unfold Store.updateSpec, Store.writeFile.
  destruct (Store.readSpec fs name); [|by intros [= _ <-]].
  destruct (faulty _); [by intros [= _ <-]|done].
Qed.

(** ** [set]: field changes and the two phases *)

(** C7: [env set] with nothing but a new namespace rewrites the spec file
    of the environment and nothing else; read back, the spec has the new
    namespace and the uri and apiSpecVersion it had. *)
Theorem set_namespace_keeps_other_fields (h : Host) (raw : string)
    (flags : FlagSet) (w : World) (d : string) (m : Manager)
    (name : list string) (s : EnvironmentSpec) (ns : string) :
  os_Getwd h = Ok d → metadata_Find h (AbsPath d) = Ok m →
  lookupFlag flags flagEnvName = Some "" →
  lookupFlag flags flagEnvURI = Some "" →
  lookupFlag flags flagEnvNamespace = Some ns → ns ≠ "" →
  lookupFlag flags flagEnvContext = Some "" →
  normalize (safeChar h) raw = Ok name →
  Store.readSpec (tree w) name = Some s →
  faulty h (PWrite (Store.specPath name)) = false →
  let s' := mkSpec (uri s) ns (apiSpecVersion s) in
  let t := <[Store.specPath name := SpecFile s']> (tree w) in
  envSetCmd h [raw] flags w
  = (Ok (), mkWorld t
              (trace w ++ [EvGetwd; EvFind (AbsPath d);
                           EvGetString flagEnvName; EvGetString flagEnvURI;
                           EvGetString flagEnvNamespace;
                           EvGetString flagEnvContext; EvUpdateSpec name])
              (stdout w))
  ∧ Store.readSpec t name = Some s'
  ∧ uri s' = uri s ∧ apiSpecVersion s' = apiSpecVersion s
  ∧ namespace s' = ns
  ∧ (∀ p, p ≠ Store.specPath name → t !! p = tree w !! p).
Proof.
  intros Hd Hm Hnm Hu Hn Hns Hc Hnorm Hread Hw s' t.
  split; [|split; [|split; [|split; [|split]]]]; try done.
  - rewrite (envSetCmd_run h raw flags w d m "" "" ns "" Hd Hm Hnm Hu Hn Hc).
    simpl. unfold EnvSetCmd_Run. run. rewrite Hnorm. simpl.
    rewrite (eqb_empty_false ns Hns). simpl.
    unfold Store.updateSpec, Store.writeFile. rewrite Hread, Hw.
    unfold applyFields. simpl. rewrite (eqb_empty_false ns Hns).
    by rewrite <- !app_assoc.
  - unfold Store.readSpec. subst t. by rewrite lookup_insert_eq.
  - intros p Hp. subst t. by rewrite lookup_insert_ne.
Qed.

Lemma set_namespace_keeps_other_fields_witness :
  Store.readSpec
    (tree (envSetCmd sampleHost ["eu/north/prod"]
             (setFlags [("namespace", "staging")]) sampleWorld).2)
    ["eu"; "north"; "prod"]
  = Some (mkSpec "https://prod:6443" "staging" "version:v1.8.0").
Proof.
  destruct (set_namespace_keeps_other_fields sampleHost "eu/north/prod"
              (setFlags [("namespace", "staging")]) sampleWorld "/app"
              (mkManager "/app") ["eu"; "north"; "prod"] prodSpec "staging"
              eq_refl eq_refl eq_refl eq_refl eq_refl ltac:(discriminate)
              eq_refl eq_refl eq_refl eq_refl)
    as (Hrun & Hread & _).
  rewrite Hrun. exact Hread.
Defined.

(** C6: [env set] that renames and changes fields runs two phases.  When
    the rename succeeds and the update of the spec then fails, the error
    of the update is what [set] returns; the tree is the tree the rename
    left: the environment is under the new name, with the spec it had,
    and not under the old name; the trace ends with the one rename and the
    one update, no rename back. *)
Theorem set_failed_update_keeps_rename (h : Host) (raw newRaw : string)
    (flags : FlagSet) (w : World) (d : string) (m : Manager)
    (u n c desired : string) (oldName newName : list string)
    (t1 t2 : gmap (list string) Entry) (e : Err) :
  os_Getwd h = Ok d → metadata_Find h (AbsPath d) = Ok m →
  lookupFlag flags flagEnvName = Some newRaw →
  newRaw ≠ "" → newRaw ≠ raw →
  lookupFlag flags flagEnvURI = Some u →
  lookupFlag flags flagEnvNamespace = Some n →
  lookupFlag flags flagEnvContext = Some c →
  (c = "" ∧ desired = u)
  ∨ (c ≠ "" ∧ u = "" ∧ ∃ ns, kubeconfig h (Some c) = Ok (desired, ns)) →
  desired ≠ "" ∨ n ≠ "" →
  normalize (safeChar h) raw = Ok oldName →
  normalize (safeChar h) newRaw = Ok newName →
  Store.rename (faulty h) oldName newName (tree w) = (Ok (), t1) →
  Store.updateSpec (faulty h) newName (applyFields desired n) t1
  = (Error e, t2) →
  envSetCmd h [raw] flags w
  = (Error e,
     mkWorld t1
       (trace w ++ [EvGetwd; EvFind (AbsPath d); EvGetString flagEnvName;
                    EvGetString flagEnvURI; EvGetString flagEnvNamespace;
                    EvGetString flagEnvContext]
                ++ (if String.eqb c "" then []
                    else [EvResolveContext (Some c)])
                ++ [EvRename oldName newName; EvUpdateSpec newName])
       (stdout w))
  ∧ Store.envExists (tree w) oldName = true
  ∧ Store.envExists t1 newName = true
  ∧ Store.readSpec t1 newName = Store.readSpec (tree w) oldName
  ∧ Store.envExists t1 oldName = false.
Proof.
  intros Hd Hm Hnm Hnew0 Hdiff Hu Hn Hc Hdes Hchange Hold Hnew Hren Hupd.
  destruct (rename_ok _ _ _ _ _ Hren) as (Hex & Hread & Hex1 & Hgone).
  pose proof (updateSpec_error _ _ _ _ _ _ Hupd) as ->.
  split; [|done].
  assert (Hfields : String.eqb desired "" && String.eqb n "" = false).
  { destruct Hchange as [H0|H0]; rewrite (eqb_empty_false _ H0);
      [done|by rewrite andb_false_r]. }
  assert (Hrun : ∀ tr, EnvSetCmd_Run h (mkEnvSetCmd raw newRaw desired n m)
                         (mkWorld (tree w) tr (stdout w))
    = (Error e, mkWorld t1 (tr ++ [EvRename oldName newName;
                                   EvUpdateSpec newName]) (stdout w))).
  { intros tr. unfold EnvSetCmd_Run. run. rewrite Hold. simpl.
    rewrite (eqb_empty_false _ Hnew0).
    apply String.eqb_neq in Hdiff. rewrite Hdiff. simpl.
    rewrite Hnew. simpl. rewrite Hren. simpl. rewrite Hfields. simpl.
    rewrite Hupd. by rewrite <- !app_assoc. }
  rewrite (envSetCmd_run h raw flags w d m newRaw u n c Hd Hm Hnm Hu Hn Hc).
  destruct Hdes as [[-> ->]|(Hc0 & -> & ns & Hk)].
  - simpl. unfold after. rewrite Hrun. by rewrite <- !app_assoc.
  - rewrite (eqb_empty_false c Hc0). simpl. rewrite Hk. unfold after.
    rewrite Hrun. by rewrite <- !app_assoc.
Qed.

Lemma set_failed_update_keeps_rename_witness :
  let done := envSetCmd readOnlyFilesHost ["us-west/staging"]
                (setFlags [("name", "us-east/staging"); ("namespace", "prod")])
                sampleWorld in
  done.1 = Error StoreIOError
  ∧ Store.readSpec (tree done.2) ["us-east"; "staging"] = Some stagingSpec
  ∧ Store.envExists (tree done.2) ["us-west"; "staging"] = false.
Proof.
  pose (moved := Store.rename (faulty readOnlyFilesHost)
                   ["us-west"; "staging"] ["us-east"; "staging"]
                   (tree sampleWorld)).
  pose (updated := Store.updateSpec (faulty readOnlyFilesHost)
                     ["us-east"; "staging"] (applyFields "" "prod") moved.2).
  assert (Hmoved : moved = (Ok (), moved.2)).
  { apply pair_eta_fst. vm_compute. reflexivity. }
  assert (Hupdated : updated = (Error StoreIOError, updated.2)).
  { apply pair_eta_fst. vm_compute. reflexivity. }
  destruct (set_failed_update_keeps_rename readOnlyFilesHost "us-west/staging"
              "us-east/staging"
              (setFlags [("name", "us-east/staging"); ("namespace", "prod")])
              sampleWorld "/app" (mkManager "/app") "" "prod" "" ""
              ["us-west"; "staging"] ["us-east"; "staging"]
              moved.2 updated.2 StoreIOError
              eq_refl eq_refl eq_refl ltac:(discriminate) ltac:(discriminate)
              eq_refl eq_refl eq_refl
              ltac:(left; split; reflexivity) ltac:(right; discriminate)
              eq_refl eq_refl Hmoved Hupdated)
    as (Hrun & _ & _ & Hread & Hgone).
  cbv zeta. rewrite Hrun. cbn [fst snd tree]. split; [reflexivity|].
  split; [|exact Hgone]. rewrite Hread. vm_compute. reflexivity.
Defined.

(** ** Scenarios *)

(** [env add us-west/staging --uri=https://host:6443] on an empty tree
    writes the spec with the default version; the listing then has one
    entry. *)
Example scenario_add_then_list :
  let added := envAddCmd sampleHost ["us-west/staging"]
                 (addFlags [("uri", "https://host:6443")]) emptyWorld in
  added.1 = Ok ()
  ∧ Store.list (tree added.2) = [(["us-west"; "staging"], stagingSpec)]
  ∧ resolutions emptyWorld added.2 = [].
Proof. vm_compute. repeat split; reflexivity. Qed.

(** Removing the only environment below [us-west] removes [us-west] as
    well; the root and the other environments stay. *)
Example scenario_remove_prunes_parent :
  let removed := envRmCmd sampleHost ["us-west/staging"] sampleWorld in
  removed.1 = Ok ()
  ∧ tree removed.2 !! ["us-west"; "staging"; ".metadata"; "k.libsonnet"] = None
  ∧ tree removed.2 !! ["us-west"] = None
  ∧ tree removed.2 !! [] = Some Dir
  ∧ Store.list (tree removed.2)
    = [(["default"], stagingSpec); (["eu"; "north"; "prod"], prodSpec)].
Proof. vm_compute. repeat split; reflexivity. Qed.

(** Removing one of two siblings leaves their parent. *)
Example scenario_remove_keeps_shared_parent :
  let added := envAddCmd sampleHost ["us-west/prod"]
                 (addFlags [("uri", "https://prod:6443")]) sampleWorld in
  let removed := envRmCmd sampleHost ["us-west/staging"] added.2 in
  removed.1 = Ok ()
  ∧ tree removed.2 !! ["us-west"] = Some Dir
  ∧ Store.envExists (tree removed.2) ["us-west"; "prod"] = true
  ∧ Store.envExists (tree removed.2) ["us-west"; "staging"] = false.
Proof. vm_compute. repeat split; reflexivity. Qed.

(** [env set us-west/staging --name=us-east/staging --namespace=prod]
    moves the directory with its cache, sets the namespace, keeps the uri
    and prunes [us-west]. *)
Example scenario_set_renames_and_updates :
  let changed := envSetCmd sampleHost ["us-west/staging"]
                   (setFlags [("name", "us-east/staging");
                              ("namespace", "prod")]) sampleWorld in
  changed.1 = Ok ()
  ∧ Store.readSpec (tree changed.2) ["us-east"; "staging"]
    = Some (mkSpec "https://host:6443" "prod" "version:v1.7.0")
  ∧ tree changed.2 !! ["us-east"; "staging"; ".metadata"; "k.libsonnet"]
    = Some (Blob "k")
  ∧ tree changed.2 !! ["us-west"] = None.
Proof. vm_compute. repeat split; reflexivity. Qed.

(** [env add] with a context and no namespace takes both uri and
    namespace from the context; [env set] with the same context takes the
    uri alone. *)
Example scenario_context_in_add_and_set :
  let added := envAddCmd sampleHost ["dev"] (addFlags [("context", "dev")])
                 emptyWorld in
  let changed := envSetCmd sampleHost ["default"]
                   (setFlags [("context", "dev")]) sampleWorld in
  Store.readSpec (tree added.2) ["dev"]
  = Some (mkSpec "https://dev:6443" "dev-ns" "version:v1.7.0")
  ∧ Store.readSpec (tree changed.2) ["default"]
    = Some (mkSpec "https://dev:6443" "" "version:v1.7.0").
Proof. vm_compute. repeat split; reflexivity. Qed.

(** Names that would leave the environments root are refused. *)
Example scenario_traversal_refused :
  normalize plainChar "../foo" = Error (InvalidNameError "..")
  ∧ normalize plainChar "a//b" = Error (InvalidNameError "")
  ∧ normalize plainChar "" = Error (InvalidNameError "")
  ∧ normalize plainChar "us-west/staging" = Ok ["us-west"; "staging"].
Proof. vm_compute. repeat split; reflexivity. Qed.

(** * More of the command layer *)

(** ** [commonEnvFlags] *)

(** X1: [commonEnvFlags] answers the three flag values exactly when all
    three flags are declared and the uri and the context are not both
    given; it then has read the three flags in the order uri, namespace,
    context.  Its only errors are the conflict of uri and context and an
    undeclared flag, and it never touches the tree or the output. *)
Theorem commonEnvFlags_cases (flags : FlagSet) (w : World) :
  (∀ u n c w',
     commonEnvFlags flags w = (Ok (u, n, c), w')
     ↔ lookupFlag flags flagEnvURI = Some u
       ∧ lookupFlag flags flagEnvNamespace = Some n
       ∧ lookupFlag flags flagEnvContext = Some c
       ∧ (u = "" ∨ c = "")
       ∧ w' = after w commonReads)
  ∧ (∀ e, (commonEnvFlags flags w).1 = Error e →
       e = ConflictingFlagsError conflictMessage
       ∨ ∃ f, e = FlagNotDefined f ∧ lookupFlag flags f = None)
  ∧ tree (commonEnvFlags flags w).2 = tree w
  ∧ stdout (commonEnvFlags flags w).2 = stdout w.
Proof.
  destruct (lookupFlag flags flagEnvURI) as [u0|] eqn:Hu.
  2:{ assert (Hrun : commonEnvFlags flags w
                     = (Error (FlagNotDefined flagEnvURI),
                        after w [EvGetString flagEnvURI])).
      { unfold commonEnvFlags, GetString. run. by rewrite Hu. }
      rewrite Hrun. split; [|split; [|done]].
      - intros u n c w'. split; [done|]. by intros (? & _).
      - intros e [= <-]. right. by exists flagEnvURI. }
  destruct (lookupFlag flags flagEnvNamespace) as [n0|] eqn:Hn.
  2:{ assert (Hrun : commonEnvFlags flags w
                     = (Error (FlagNotDefined flagEnvNamespace),
                        after w [EvGetString flagEnvURI;
                                 EvGetString flagEnvNamespace])).
      { unfold commonEnvFlags, GetString. run. rewrite Hu. simpl.
        rewrite Hn. simpl. by rewrite <- !app_assoc. }
      rewrite Hrun. split; [|split; [|done]].
      - intros u n c w'. split; [done|]. by intros (_ & ? & _).
      - intros e [= <-]. right. by exists flagEnvNamespace. }
  destruct (lookupFlag flags flagEnvContext) as [c0|] eqn:Hc.
  2:{ assert (Hrun : commonEnvFlags flags w
                     = (Error (FlagNotDefined flagEnvContext),
                        after w commonReads)).
      { unfold commonEnvFlags, GetString. run. rewrite Hu. simpl.
        rewrite Hn. simpl. rewrite Hc. simpl. by rewrite <- !app_assoc. }
      rewrite Hrun. split; [|split; [|done]].
      - intros u n c w'. split; [done|]. by intros (_ & _ & ? & _).
      - intros e [= <-]. right. by exists flagEnvContext. }
  rewrite (commonEnvFlags_run flags w u0 n0 c0 Hu Hn Hc).
  fold commonReads.
  destruct (String.eqb c0 "") eqn:Ec; simpl.
  - apply String.eqb_eq in Ec as ->. split; [|split; [|done]]; [|done].
    intros u n c w'. split.
    + intros [= <- <- <- <-]. repeat split; auto.
    + by intros ([= <-] & [= <-] & [= <-] & _ & ->).
  - apply String.eqb_neq in Ec.
    destruct (String.eqb u0 "") eqn:Eu; simpl.
    + apply String.eqb_eq in Eu as ->. split; [|split; [|done]]; [|done].
      intros u n c w'. split.
      * intros [= <- <- <- <-]. repeat split; auto.
      * by intros ([= <-] & [= <-] & [= <-] & _ & ->).
    + apply String.eqb_neq in Eu. split; [|split; [|done]].
      * intros u n c w'. split; [done|].
        intros ([= <-] & _ & [= <-] & [?|?] & _); done.
      * intros e [= <-]. by left.
Qed.

Lemma commonEnvFlags_cases_witness :
  commonEnvFlags (setFlags [("uri", "http://example.com")]) sampleWorld
  = (Ok ("http://example.com", "", ""), after sampleWorld commonReads).
Proof.
  apply (commonEnvFlags_cases (setFlags [("uri", "http://example.com")])
           sampleWorld).
  repeat split; auto.
Defined.

(** ** The flags [init] declares *)



(** ** Failures of the host *)

Lemma envAddCmd_finish_lost h name flags uri ns w e :
  locate h = Error e →
  envAddCmd_finish h name flags uri ns w
  = (Error e, after w (locateEvents h)).
Proof.
  unfold locate, locateEvents, envAddCmd_finish, Getwd, Find. run.
  destruct (os_Getwd h) as [d|e0]; simpl; [|by intros [= <-]].
  intros ->. simpl. by rewrite <- app_assoc.
Qed.

(** X3: [env rm], [env list] and [env set] look for the application
    before anything else.  When the working directory or the application
    root is not found they return that error at once: [set] has read no
    flag and resolved no context, and nothing was handed to the store. *)
Theorem commands_stop_without_application (h : Host) (name : string)
    (flags : FlagSet) (w : World) (e : Err) :
  locate h = Error e →
  envRmCmd h [name] w = (Error e, after w (locateEvents h))
  ∧ envListCmd h [] w = (Error e, after w (locateEvents h))
  ∧ envSetCmd h [name] flags w = (Error e, after w (locateEvents h)).
Proof.
  unfold locate, locateEvents, envRmCmd, envListCmd, envSetCmd, Getwd, Find.
  simpl. run.
  destruct (os_Getwd h) as [d|e0]; simpl; [|by intros [= <-]].
  intros ->. simpl. by rewrite <- !app_assoc.
Qed.

Lemma commands_stop_without_application_witness :
  envSetCmd strayHost ["default"] (setFlags [("namespace", "prod")])
    sampleWorld
  = (Error (HostError "no ksonnet application found"),
     after sampleWorld [EvGetwd; EvFind (AbsPath "/tmp")]).
Proof.
  apply (commands_stop_without_application strayHost "default"
           (setFlags [("namespace", "prod")]) sampleWorld
           (HostError "no ksonnet application found")).
  reflexivity.
Defined.

(** X4: [env add] looks for the application only after the flags and the
    context.  Outside an application it still reads the three flags and,
    with an empty uri flag, resolves the context; an error of the resolver
    comes first, otherwise the error of the lookup is returned.  Nothing
    is created. *)
Theorem add_finds_application_last (h : Host) (name : string)
    (flags : FlagSet) (w : World) (u n c : string) (e : Err) :
  lookupFlag flags flagEnvURI = Some u →
  lookupFlag flags flagEnvNamespace = Some n →
  lookupFlag flags flagEnvContext = Some c →
  u = "" ∨ c = "" →
  locate h = Error e →
  let ctx := if String.eqb c "" then None else Some c in
  envAddCmd h [name] flags w
  = if String.eqb u "" then
      match kubeconfig h ctx with
      | Ok _ =>
          (Error e, after w (commonReads ++ [EvResolveContext ctx]
                             ++ locateEvents h))
      | Error e' => (Error e', after w (commonReads ++ [EvResolveContext ctx]))
      end
    else (Error e, after w (commonReads ++ locateEvents h)).
Proof.
  intros Hu Hn Hc Hone Hlost ctx.
  rewrite (envAddCmd_run h name flags w u n c Hu Hn Hc). fold ctx commonReads.
  assert (Hno : negb (String.eqb c "") && negb (String.eqb u "") = false).
  { destruct Hone as [->| ->]; [by rewrite andb_false_r|done]. }
  rewrite Hno.
  destruct (String.eqb u "").
  - destruct (kubeconfig h ctx) as [[uri' ns]|e']; [|done].
    rewrite (envAddCmd_finish_lost _ _ _ _ _ _ e Hlost).
    by rewrite after_after, <- app_assoc.
  - rewrite (envAddCmd_finish_lost _ _ _ _ _ _ e Hlost).
    by rewrite after_after.
Qed.

Lemma add_finds_application_last_witness :
  envAddCmd strayHost ["dev"] (addFlags [("context", "dev")]) sampleWorld
  = (Error (HostError "no ksonnet application found"),
     after sampleWorld
       (commonReads ++ [EvResolveContext (Some "dev")]
        ++ [EvGetwd; EvFind (AbsPath "/tmp")])).
Proof.
  apply (add_finds_application_last strayHost "dev"
           (addFlags [("context", "dev")]) sampleWorld "" "" "dev"
           (HostError "no ksonnet application found")
           eq_refl eq_refl eq_refl (or_introl eq_refl) eq_refl).
Defined.

(** ** Context resolution in [set] *)

(** [commonEnvFlags] on any flag set. *)
Lemma commonEnvFlags_total flags w :
  commonEnvFlags flags w =
    match lookupFlag flags flagEnvURI with
    | None => (Error (FlagNotDefined flagEnvURI),
               after w [EvGetString flagEnvURI])
    | Some u =>
        match lookupFlag flags flagEnvNamespace with
        | None => (Error (FlagNotDefined flagEnvNamespace),
                   after w [EvGetString flagEnvURI;
                            EvGetString flagEnvNamespace])
        | Some n =>
            match lookupFlag flags flagEnvContext with
            | None => (Error (FlagNotDefined flagEnvContext),
                       after w commonReads)
            | Some c =>
                (if negb (String.eqb c "") && negb (String.eqb u "")
                 then Error (ConflictingFlagsError conflictMessage)
                 else Ok (u, n, c), after w commonReads)
            end
        end
    end.
Proof.
  destruct (lookupFlag flags flagEnvURI) as [u|] eqn:Hu.
  2:{ unfold commonEnvFlags, GetString. run. by rewrite Hu. }
  destruct (lookupFlag flags flagEnvNamespace) as [n|] eqn:Hn.
  2:{ unfold commonEnvFlags, GetString. run. rewrite Hu. simpl.
      rewrite Hn. simpl. by rewrite <- !app_assoc. }
  destruct (lookupFlag flags flagEnvContext) as [c|] eqn:Hc.
  2:{ unfold commonEnvFlags, GetString. run. rewrite Hu. simpl.
      rewrite Hn. simpl. rewrite Hc. simpl. by rewrite <- !app_assoc. }
  by rewrite (commonEnvFlags_run flags w u n c Hu Hn Hc).
Qed.

(** [envSetCmd] inside an application, on any flag set. *)
Lemma envSetCmd_found h name flags w d m :
  os_Getwd h = Ok d → metadata_Find h (AbsPath d) = Ok m →
  let w1 := after w [EvGetwd; EvFind (AbsPath d); EvGetString flagEnvName] in
  envSetCmd h [name] flags w =
    match lookupFlag flags flagEnvName with
    | None => (Error (FlagNotDefined flagEnvName), w1)
    | Some nm =>
        match commonEnvFlags flags w1 with
        | (Error e, w2) => (Error e, w2)
        | (Ok (u, n, c), w2) =>
            if String.eqb c "" then
              EnvSetCmd_Run h (mkEnvSetCmd name nm u n m) w2
            else
              match kubeconfig h (Some c) with
              | Ok (uri', _) =>
                  EnvSetCmd_Run h (mkEnvSetCmd name nm uri' n m)
                    (after w2 [EvResolveContext (Some c)])
              | Error e => (Error e, after w2 [EvResolveContext (Some c)])
              end
        end
    end.
Proof.
  intros Hd Hm w1. subst w1.
  unfold envSetCmd, Getwd, Find, resolveContext, NewEnvSetCmd. simpl. run.
  rewrite Hd. simpl. rewrite Hm. simpl. rewrite <- !app_assoc. simpl.
  destruct (lookupFlag flags flagEnvName) as [nm|]; [|done].
  destruct (commonEnvFlags flags _) as [[[[u n] c]|e] w2]; [|done].
  rewrite len_zero. destruct (String.eqb c ""); simpl; [done|].
  by destruct (kubeconfig h (Some c)) as [[uri' ns]|e].
Qed.

(** The run of the set command starts a rename and an update at most, and
    resolves nothing. *)
Lemma EnvSetCmd_Run_events h c w :
  ∃ evs, trace (EnvSetCmd_Run h c w).2 = trace w ++ evs
    ∧ omap resolved evs = [].
Proof.
  unfold EnvSetCmd_Run. run.
  destruct (normalize (safeChar h) (set_name c)) as [old|e]; simpl;
    [|exists []; by rewrite app_nil_r].
  destruct (negb (String.eqb (set_desiredName c) "")
            && negb (String.eqb (set_desiredName c) (set_name c))); simpl.
  - destruct (normalize (safeChar h) (set_desiredName c)) as [new|e]; simpl;
      [|exists []; by rewrite app_nil_r].
    destruct (Store.rename _ _ _ _) as [[[]|e] t]; simpl;
      [|by exists [EvRename old new]].
    destruct (String.eqb (set_desiredURI c) ""
              && String.eqb (set_desiredNamespace c) ""); simpl;
      [by exists [EvRename old new]|].
    destruct (Store.updateSpec _ _ _ _) as [r t']. simpl.
    exists [EvRename old new; EvUpdateSpec new]. by rewrite <- app_assoc.
  - destruct (String.eqb (set_desiredURI c) ""
              && String.eqb (set_desiredNamespace c) ""); simpl;
      [exists []; by rewrite app_nil_r|].
    destruct (Store.updateSpec _ _ _ _) as [r t']. simpl.
    by exists [EvUpdateSpec old].
Qed.

Lemma envSetCmd_arity h args flags w :
  length args ≠ 1 → envSetCmd h args flags w = (Error aritySet, w).
Proof.
  intros Hlen. apply Nat.eqb_neq in Hlen. unfold envSetCmd. by rewrite Hlen.
Qed.

(** X5: [env set] hands the resolver nothing but the context named by its
    [context] flag, once, and only when the [uri] flag is empty; unlike
    [add] it never asks for the active context.  Inside an application,
    on a flag set that declares its flags, it resolves exactly when the
    context flag is given and the uri flag is not. *)
Theorem set_resolves_named_context_only (h : Host) (args : list string)
    (flags : FlagSet) (w : World) :
  (resolutions w (envSetCmd h args flags w).2 = []
   ∨ ∃ c, c ≠ "" ∧ lookupFlag flags flagEnvContext = Some c
       ∧ lookupFlag flags flagEnvURI = Some ""
       ∧ resolutions w (envSetCmd h args flags w).2 = [Some c])
  ∧ (∀ name m nm u n c,
       args = [name] → locate h = Ok m →
       lookupFlag flags flagEnvName = Some nm →
       lookupFlag flags flagEnvURI = Some u →
       lookupFlag flags flagEnvNamespace = Some n →
       lookupFlag flags flagEnvContext = Some c →
       resolutions w (envSetCmd h args flags w).2
       = if negb (String.eqb c "") && String.eqb u "" then [Some c] else []).
Proof.
  assert (Hrun : ∀ cmd pre,
    omap resolved (newEvents w (EnvSetCmd_Run h cmd (after w pre)).2)
    = omap resolved pre).
  { intros cmd pre.
    destruct (EnvSetCmd_Run_events h cmd (after w pre)) as (evs & Htr & Hno).
    unfold newEvents. rewrite Htr. unfold after. simpl.
    by rewrite <- app_assoc, drop_app_length, omap_app, Hno, app_nil_r. }
  assert (Hfound : ∀ name d m,
    os_Getwd h = Ok d → metadata_Find h (AbsPath d) = Ok m →
    match lookupFlag flags flagEnvName, lookupFlag flags flagEnvURI,
          lookupFlag flags flagEnvNamespace, lookupFlag flags flagEnvContext
    with
    | Some _, Some u, Some _, Some c =>
        resolutions w (envSetCmd h [name] flags w).2
        = if negb (String.eqb c "") && String.eqb u "" then [Some c] else []
    | _, _, _, _ => resolutions w (envSetCmd h [name] flags w).2 = []
    end).
  { intros name d m Hd Hm.
    rewrite (envSetCmd_found h name flags w d m Hd Hm).
    unfold resolutions.
    destruct (lookupFlag flags flagEnvName) as [nm|];
      [|cbn [snd]; by rewrite newEvents_after].
    rewrite commonEnvFlags_total, !after_after.
    destruct (lookupFlag flags flagEnvURI) as [u|];
      [|cbn [snd]; by rewrite newEvents_after].
    destruct (lookupFlag flags flagEnvNamespace) as [n|];
      [|cbn [snd]; by rewrite newEvents_after].
    destruct (lookupFlag flags flagEnvContext) as [c|];
      [|cbn [snd]; by rewrite newEvents_after].
    destruct (String.eqb c "") eqn:Ec; cbn [negb andb]; rewrite ?Ec.
    - by rewrite Hrun.
    - destruct (String.eqb u "") eqn:Eu; cbn [negb]; rewrite ?Ec;
        [|cbn [snd]; by rewrite newEvents_after].
      destruct (kubeconfig h (Some c)) as [[uri' ns]|e].
      + by rewrite after_after, Hrun.
      + cbn [snd]. by rewrite after_after, newEvents_after. }
  split.
  - destruct args as [|name [|]].
    + left. rewrite envSetCmd_arity by done. unfold resolutions.
      cbn [snd]. by rewrite newEvents_same.
    + destruct (os_Getwd h) as [d|e] eqn:Hd.
      2:{ left. unfold envSetCmd, Getwd. simpl. run. rewrite Hd.
          unfold resolutions, newEvents. simpl.
          by rewrite drop_app_length. }
      destruct (metadata_Find h (AbsPath d)) as [m|e] eqn:Hm.
      2:{ left. unfold envSetCmd, Getwd, Find. simpl. run. rewrite Hd.
          simpl. rewrite Hm. simpl. rewrite <- app_assoc.
          unfold resolutions, newEvents. simpl.
          by rewrite drop_app_length. }
      pose proof (Hfound name d m eq_refl Hm) as Hres.
      destruct (lookupFlag flags flagEnvName); [|by left].
      destruct (lookupFlag flags flagEnvURI) as [u|]; [|by left].
      destruct (lookupFlag flags flagEnvNamespace); [|by left].
      destruct (lookupFlag flags flagEnvContext) as [c|]; [|by left].
      destruct (String.eqb c "") eqn:Ec; simpl in Hres; [by left|].
      destruct (String.eqb u "") eqn:Eu; simpl in Hres; [|by left].
      right. exists c. apply String.eqb_neq in Ec.
      apply String.eqb_eq in Eu as ->. done.
    + left. rewrite envSetCmd_arity by done. unfold resolutions.
      cbn [snd]. by rewrite newEvents_same.
  - intros name m nm u n c -> Hloc Hnm Hu Hn Hc. unfold locate in Hloc.
    destruct (os_Getwd h) as [d|e] eqn:Hd; [|done].
    pose proof (Hfound name d m eq_refl Hloc) as Hres.
    by rewrite Hnm, Hu, Hn, Hc in Hres.
Qed.

Lemma set_resolves_named_context_only_witness :
  resolutions sampleWorld
    (envSetCmd sampleHost ["default"] (setFlags [("context", "dev")])
       sampleWorld).2
  = [Some "dev"].
Proof.
  apply (proj2 (set_resolves_named_context_only sampleHost ["default"]
                  (setFlags [("context", "dev")]) sampleWorld)
           "default" (mkManager "/app") "" "" "" "dev"
           eq_refl eq_refl eq_refl eq_refl eq_refl eq_refl).
Defined.

(** X6: when the resolver fails, [add] with an empty uri flag returns the
    resolver's error having looked for no application and created
    nothing, and [set] with a context given returns it having handed
    nothing to the store.  [set] without a context does not depend on the
    resolver at all: it runs the set command on the flags as they are. *)
Theorem unresolved_context_stops_the_command (h : Host) (name : string)
    (flags : FlagSet) (w : World) (n c : string) (e : Err) :
  lookupFlag flags flagEnvURI = Some "" →
  lookupFlag flags flagEnvNamespace = Some n →
  lookupFlag flags flagEnvContext = Some c →
  let ctx := if String.eqb c "" then None else Some c in
  kubeconfig h ctx = Error e →
  envAddCmd h [name] flags w
  = (Error e, after w (commonReads ++ [EvResolveContext ctx]))
  ∧ (∀ m nm,
       locate h = Ok m → lookupFlag flags flagEnvName = Some nm →
       envSetCmd h [name] flags w
       = if String.eqb c "" then
           EnvSetCmd_Run h (mkEnvSetCmd name nm "" n m)
             (after w (locateEvents h ++ [EvGetString flagEnvName]
                       ++ commonReads))
         else
           (Error e,
            after w (locateEvents h ++ [EvGetString flagEnvName]
                     ++ commonReads ++ [EvResolveContext (Some c)]))).
Proof.
  intros Hu Hn Hc ctx Hk. split.
  - rewrite (envAddCmd_run h name flags w "" n c Hu Hn Hc). fold ctx.
    by rewrite andb_false_r, Hk.
  - intros m nm Hloc Hnm. unfold locate, locateEvents in *.
    destruct (os_Getwd h) as [d|e0] eqn:Hd; [|done].
    rewrite (envSetCmd_run h name flags w d m nm "" n c Hd Hloc Hnm Hu Hn Hc).
    rewrite andb_false_r. subst ctx. unfold commonReads.
    destruct (String.eqb c ""); simpl; [done|]. by rewrite Hk.
Qed.

Lemma unresolved_context_stops_the_command_witness :
  envAddCmd sampleHost ["qa"] (addFlags [("context", "qa")]) sampleWorld
  = (Error ContextNotFoundError,
     after sampleWorld (commonReads ++ [EvResolveContext (Some "qa")])).
Proof.
  apply (unresolved_context_stops_the_command sampleHost "qa"
           (addFlags [("context", "qa")]) sampleWorld "" "qa"
           ContextNotFoundError eq_refl eq_refl eq_refl eq_refl).
Defined.

(** ** Independence from the kubeconfig *)

Lemma envAddCmd_flags_error h name flags w e w1 :
  commonEnvFlags flags w = (Error e, w1) →
  envAddCmd h [name] flags w = (Error e, w1).
Proof.
  intros Hflags. unfold envAddCmd. simpl.
  unfold mbind at 1, M_bind at 1. by rewrite Hflags.
Qed.

(** X7: a run that does not need a context does not depend on the
    kubeconfig.  [env add] with a uri given, [env set] with no context
    given, [env rm] and [env list] do the same and leave the same world
    whatever the resolver would answer, broken or not. *)
Theorem kubeconfig_unused_without_context (h : Host)
    (k k' : option string → result (string * string))
    (args : list string) (flags : FlagSet) (w : World) :
  (∀ u, lookupFlag flags flagEnvURI = Some u → u ≠ "" →
     envAddCmd (withKubeconfig h k) args flags w
     = envAddCmd (withKubeconfig h k') args flags w)
  ∧ (lookupFlag flags flagEnvContext = Some "" →
     envSetCmd (withKubeconfig h k) args flags w
     = envSetCmd (withKubeconfig h k') args flags w)
  ∧ envRmCmd (withKubeconfig h k) args w
    = envRmCmd (withKubeconfig h k') args w
  ∧ envListCmd (withKubeconfig h k) args w
    = envListCmd (withKubeconfig h k') args w.
Proof.
  split; [|split; [|split]]; [| |reflexivity|reflexivity].
  - intros u Hu Hu0.
    destruct args as [|name [|]]; [by rewrite !envAddCmd_arity| |
                                   by rewrite !envAddCmd_arity].
    pose proof (commonEnvFlags_total flags w) as Hflags. rewrite Hu in Hflags.
    destruct (lookupFlag flags flagEnvNamespace) as [n|] eqn:Hn;
      [|by rewrite !(envAddCmd_flags_error _ _ _ _ _ _ Hflags)].
    destruct (lookupFlag flags flagEnvContext) as [c|] eqn:Hc;
      [|by rewrite !(envAddCmd_flags_error _ _ _ _ _ _ Hflags)].
    rewrite !(envAddCmd_run _ name flags w u n c Hu Hn Hc).
    destruct (negb (String.eqb c "") && negb (String.eqb u "")); [done|].
    rewrite (eqb_empty_false u Hu0). reflexivity.
  - intros Hc. unfold envSetCmd.
    destruct (negb (length args =? 1)); [done|].
    unfold Getwd, Find, withKubeconfig. simpl. run.
    destruct (os_Getwd h) as [d|e]; [simpl|done].
    destruct (metadata_Find h (AbsPath d)) as [m|e]; [simpl|done].
    destruct (lookupFlag flags flagEnvName) as [nm|]; [|done].
    rewrite commonEnvFlags_total, Hc.
    destruct (lookupFlag flags flagEnvURI) as [u|]; [|done].
    destruct (lookupFlag flags flagEnvNamespace) as [n|]; [|done].
    reflexivity.
Qed.

Lemma kubeconfig_unused_without_context_witness :
  envAddCmd (withKubeconfig sampleHost (fun _ => Error ContextResolutionError))
    ["qa"] (addFlags [("uri", "https://qa:6443")]) sampleWorld
  = envAddCmd (withKubeconfig sampleHost sampleKubeconfig)
      ["qa"] (addFlags [("uri", "https://qa:6443")]) sampleWorld.
Proof.
  apply (proj1 (kubeconfig_unused_without_context sampleHost
                  (fun _ => Error ContextResolutionError) sampleKubeconfig
                  ["qa"] (addFlags [("uri", "https://qa:6443")]) sampleWorld)
           "https://qa:6443" eq_refl).
  discriminate.
Defined.
